(** * Masterblog API: the post store of [backend/backend_app.py]

    A shallow embedding of the five Flask handlers ([get_posts], [add_post],
    [delete_post], [update_post], [search_posts]) over the module-level list
    [POSTS], followed by the properties of the store.

    Conventions of the embedding:
    - the module-level list [POSTS] is threaded explicitly: a handler takes the
      list and returns its outcome together with the list it leaves behind;
    - a handler either returns a response (body and HTTP status) or lets a
      Python exception escape (which Flask turns into a 500 response);
    - values that come out of [request.get_json()] are JSON values; Python
      [int] is [Z], Python [float] is the binary64 [float];
    - a Python [str] is the [string] of its UTF-8 bytes: emptiness, equality,
      containment ([in]) and the order by code points ([<]) of two [str] are
      those of their byte strings;
    - [str.lower] is a parameter of the model: an arbitrary function on
      strings. *)

From Stdlib Require Import ZArith Floats Ascii String DecimalString Sorted
  Permutation Lia.
From stdpp Require Import base list strings sorting.

Local Open Scope Z_scope.
Set Warnings "-register-all".
Set Default Proof Using "Type".

(** ** Python values *)

(** What [request.get_json()] can return, and what a post's [title] and
    [content] can therefore hold.  A JSON number is an [int] ([JNum]) or a
    [float] ([JFloat]). *)
Inductive json : Type :=
  | JNull
  | JBool (b : bool)
  | JNum (n : Z)
  | JFloat (x : float)
  | JStr (s : string)
  | JArr (items : list json)
  | JObj (members : list (string * json)).

(** The exceptions the handlers can let escape. *)
Inductive exn : Type :=
  | TypeError
  | AttributeError
  | KeyError.

(** A computation that yields a value or raises. *)
Inductive result (A : Type) : Type :=
  | Ok (a : A)
  | Raise (e : exn).
Arguments Ok {A} a.
Arguments Raise {A} e.

#[global] Instance result_ret : MRet result := λ A, Ok.
#[global] Instance result_bind : MBind result := λ A B k m,
  match m with
  | Ok a => k a
  | Raise e => Raise e
  end.

(** [[f(x) for x in l]], stopping at the first exception. *)
Fixpoint map_result {A B : Type} (f : A → result B) (l : list A) : result (list B) :=
  match l with
  | [] => Ok []
  | x :: l' => y ← f x; ys ← map_result f l'; Ok (y :: ys)
  end.

(** *** Strings *)

Definition dquote : string := String (ascii_of_nat 34) EmptyString.

(** [c.lower()] on one ASCII character: [A]..[Z] go to [a]..[z]. *)
Definition lower_ascii (c : ascii) : ascii :=
  let n := N_of_ascii c in
  if ((65 <=? n) && (n <=? 90))%N then ascii_of_N (n + 32) else c.

(** [s.lower()] on ASCII text.  The handlers are modelled over an arbitrary
    [lower] (see below); this instance serves the concrete runs at the end. *)
Fixpoint ascii_lower (s : string) : string :=
  match s with
  | EmptyString => EmptyString
  | String c s' => String (lower_ascii c) (ascii_lower s')
  end.

(** [q in s] for two [str]: [q] occurs in [s] as a contiguous run. *)
Fixpoint str_contains (q s : string) : bool :=
  String.prefix q s ||
  match s with
  | EmptyString => false
  | String _ s' => str_contains q s'
  end.

(** [str(n)] for an [int]. *)
Definition str_of_int (n : Z) : string := NilZero.string_of_int (Z.to_int n).

(** *** Truthiness, membership, subscripting *)

(** [bool(v)]: [None], [False], [0], [0.0] and [-0.0], the empty string, list
    and dict are falsy. *)
Definition truthy (v : json) : bool :=
  match v with
  | JNull => false
  | JBool b => b
  | JNum n => negb (n =? 0)
  | JFloat x => negb (PrimFloat.eqb x 0%float)
  | JStr s => negb (String.eqb s EmptyString)
  | JArr items => match items with [] => false | _ => true end
  | JObj members => match members with [] => false | _ => true end
  end.

(** [bool(s)] for a [str]. *)
Definition str_truthy (s : string) : bool := negb (String.eqb s EmptyString).

(** The members of a parsed JSON object (one binding per key), looked up by
    key. *)
Fixpoint dict_get (k : string) (members : list (string * json)) : option json :=
  match members with
  | [] => None
  | (k', v) :: members' => if String.eqb k k' then Some v else dict_get k members'
  end.

Definition is_str (k : string) (v : json) : bool :=
  match v with
  | JStr s => String.eqb k s
  | _ => false
  end.

(** [k in v] for a [str] key [k]. *)
Definition py_in (k : string) (v : json) : result bool :=
  match v with
  | JObj members => Ok (bool_decide (is_Some (dict_get k members)))
  | JArr items => Ok (existsb (is_str k) items)
  | JStr s => Ok (str_contains k s)
  | JNull | JBool _ | JNum _ | JFloat _ => Raise TypeError
  end.

(** [v[k]] for a [str] key [k]. *)
Definition py_getitem (v : json) (k : string) : result json :=
  match v with
  | JObj members =>
      match dict_get k members with
      | Some x => Ok x
      | None => Raise KeyError
      end
  | _ => Raise TypeError
  end.

(** [v.get(k, default)] *)
Definition py_get (v : json) (k : string) (d : json) : result json :=
  match v with
  | JObj members => Ok (default d (dict_get k members))
  | _ => Raise AttributeError
  end.

(** ** The case mapping

    [str.lower] is a library function: it maps the characters of every script
    and is not part of the program.  The handlers are modelled over an
    arbitrary function [lower] on strings, and what is proved of them holds
    for every such function.  The only fact about [str.lower] that some
    properties need is stated as [lower_keeps_empty]; it is a hypothesis of
    the theorems that use it. *)

Section model.
Context (lower : string → string).

(** [s.lower()] is empty exactly for the empty [s]. *)
Definition lower_keeps_empty : Prop :=
  ∀ s, lower s = EmptyString ↔ s = EmptyString.

(** [v.lower()]: only a [str] has the method. *)
Definition py_lower (v : json) : result string :=
  match v with
  | JStr s => Ok (lower s)
  | _ => Raise AttributeError
  end.

(** ** Posts and responses *)

(** An element of [POSTS]: a dict with the keys [id], [title], [content]. *)
Record post : Type := Post { id : Z; title : json; content : json }.

(** [post[k]] *)
Definition post_getitem (p : post) (k : string) : result json :=
  if String.eqb k "id" then Ok (JNum (id p))
  else if String.eqb k "title" then Ok (title p)
  else if String.eqb k "content" then Ok (content p)
  else Raise KeyError.

(** What [jsonify] is applied to. *)
Inductive body : Type :=
  | JPosts (posts : list post)
  | JPost (p : post)
  | JError (error : string)
  | JMessage (message : string).

(** [return jsonify(b), status] *)
Record response : Type := Response { resp_body : body; status : Z }.

(** The outcome of a handler and the list it leaves in [POSTS]. *)
Definition outcome : Type := result response * list post.

Definition respond (b : body) (st : Z) (POSTS : list post) : outcome :=
  (Ok (Response b st), POSTS).

Definition escape (e : exn) (POSTS : list post) : outcome := (Raise e, POSTS).

(** The value of [POSTS] when the module is loaded. *)
Definition POSTS_seed : list post :=
  [ Post 1 (JStr "First post") (JStr "This is the first post.");
    Post 2 (JStr "Second post") (JStr "This is the second post.") ].

(** ** [list.sort(key=..., reverse=...)] *)

(** The sort compares keys with [<] only and is stable.  Each element is
    placed before the first key that is not smaller than its own. *)
Fixpoint insert_by_key {A : Type} (x : string * A) (l : list (string * A))
  : list (string * A) :=
  match l with
  | [] => [x]
  | y :: l' => if String.ltb y.1 x.1 then y :: insert_by_key x l' else x :: y :: l'
  end.

Definition stable_sort {A : Type} (l : list (string * A)) : list (string * A) :=
  foldr insert_by_key [] l.

(** With [reverse=True] the list is reversed, sorted, and reversed again,
    which keeps elements with equal keys in their original order. *)
Definition sort_decorated {A : Type} (reverse_sort : bool) (l : list (string * A))
  : list (string * A) :=
  if reverse_sort then reverse (stable_sort (reverse l)) else stable_sort l.

(** [l.sort(key=key, reverse=reverse_sort)]: the keys of all elements are
    computed first, the elements are then ordered by their keys. *)
Definition list_sort {A : Type} (key : A → result string) (reverse_sort : bool)
    (l : list A) : result (list A) :=
  keys ← map_result key l;
  Ok ((sort_decorated reverse_sort (zip keys l)).*2).

(** Decorated elements ordered by their keys, upwards and downwards. *)
Definition key_le {A : Type} : relation (string * A) := λ x y, (x.1 ≤ y.1)%string.
Definition key_ge {A : Type} : relation (string * A) := flip key_le.

(** ** The handlers *)

Definition valid_fields : list string := ["title"; "content"].
Definition valid_directions : list string := ["asc"; "desc"].

(** [o and o not in l] for [o] returned by [request.args.get]. *)
Definition given_and_not_in (o : option string) (l : list string) : bool :=
  match o with
  | None => false
  | Some s => str_truthy s && negb (bool_decide (s ∈ l))
  end.

Definition invalid_sort_msg : string :=
  "Invalid sort field. Must be " +:+ dquote +:+ "title" +:+ dquote +:+ " or "
    +:+ dquote +:+ "content" +:+ dquote +:+ ".".

Definition invalid_direction_msg : string :=
  "Invalid direction. Must be " +:+ dquote +:+ "asc" +:+ dquote +:+ " or "
    +:+ dquote +:+ "desc" +:+ dquote +:+ ".".

(** [GET /api/posts] with [sort_field = request.args.get('sort')] and
    [direction = request.args.get('direction')]: [None] for an absent
    parameter.  [if sort_field:] holds for a parameter that is given and not
    the empty string. *)
Definition get_posts (POSTS : list post) (sort_field direction : option string)
  : outcome :=
  let sorted_posts := POSTS in
  if given_and_not_in sort_field valid_fields then
    respond (JError invalid_sort_msg) 400 POSTS
  else if given_and_not_in direction valid_directions then
    respond (JError invalid_direction_msg) 400 POSTS
  else
    match sort_field with
    | Some field =>
        if str_truthy field then
          let reverse_sort := bool_decide (direction = Some "desc") in
          match list_sort (λ p, v ← post_getitem p field; py_lower v)
                  reverse_sort sorted_posts with
          | Ok sorted_posts => respond (JPosts sorted_posts) 200 POSTS
          | Raise e => escape e POSTS
          end
        else respond (JPosts sorted_posts) 200 POSTS
    | None => respond (JPosts sorted_posts) 200 POSTS
    end.

(** [not data or 'title' not in data or 'content' not in data] *)
Definition missing_fields (data : json) : result bool :=
  if negb (truthy data) then Ok true
  else
    has_title ← py_in "title" data;
    if negb has_title then Ok true
    else has_content ← py_in "content" data; Ok (negb has_content).

(** [max(l)] for a non-empty [l]. *)
Definition py_max (x : Z) (l : list Z) : Z := foldl Z.max x l.

(** [max(post['id'] for post in POSTS) + 1 if POSTS else 1] *)
Definition new_id (POSTS : list post) : Z :=
  match POSTS with
  | [] => 1
  | p :: ps => py_max (id p) (id <$> ps) + 1
  end.

(** [POST /api/posts] with [data = request.get_json()]. *)
Definition add_post (POSTS : list post) (data : json) : outcome :=
  match missing_fields data with
  | Raise e => escape e POSTS
  | Ok true => respond (JError "Missing title or content") 400 POSTS
  | Ok false =>
      match (t ← py_getitem data "title"; c ← py_getitem data "content"; Ok (t, c)) with
      | Raise e => escape e POSTS
      | Ok (t, c) =>
          let new_post := Post (new_id POSTS) t c in
          respond (JPost new_post) 201 (POSTS ++ [new_post])
      end
  end.

(** [next((post for post in POSTS if post['id'] == post_id), None)], with the
    position of the post found. *)
Definition find_post (POSTS : list post) (post_id : Z) : option (nat * post) :=
  list_find (λ p, id p = post_id) POSTS.

Definition not_found_msg (post_id : Z) : string :=
  "Post with id " +:+ str_of_int post_id +:+ " not found.".

Definition deleted_msg (post_id : Z) : string :=
  "Post with id " +:+ str_of_int post_id +:+ " has been deleted successfully.".

(** [DELETE /api/posts/<int:post_id>].  [POSTS.remove(post_to_delete)] takes out
    the first element equal to [post_to_delete]; that is [post_to_delete]
    itself, the first post with this id, since every post before it has
    another id. *)
Definition delete_post (POSTS : list post) (post_id : Z) : outcome :=
  match find_post POSTS post_id with
  | None => respond (JError (not_found_msg post_id)) 404 POSTS
  | Some (i, post_to_delete) => respond (JMessage (deleted_msg post_id)) 200 (delete i POSTS)
  end.

(** [PUT /api/posts/<int:post_id>] with [data = request.get_json()].  The post
    found is updated in place, at its position in [POSTS]. *)
Definition update_post (POSTS : list post) (post_id : Z) (data : json) : outcome :=
  match find_post POSTS post_id with
  | None => respond (JError (not_found_msg post_id)) 404 POSTS
  | Some (i, post_to_update) =>
      match (t ← py_get data "title" (title post_to_update);
             c ← py_get data "content" (content post_to_update);
             Ok (t, c)) with
      | Raise e => escape e POSTS
      | Ok (t, c) =>
          respond (JPost (Post post_id t c)) 200
            (<[i := Post (id post_to_update) t c]> POSTS)
      end
  end.

(** [query and query in v.lower()]: the right operand is evaluated only for a
    non-empty query. *)
Definition query_match (query : string) (v : json) : result bool :=
  if str_truthy query then s ← py_lower v; Ok (str_contains query s)
  else Ok false.

(** The loop [for post in POSTS: ...] of [search_posts], started with
    [matched_posts]. *)
Fixpoint search_loop (title_query content_query : string)
    (posts matched_posts : list post) : result (list post) :=
  match posts with
  | [] => Ok matched_posts
  | p :: posts' =>
      title_match ← query_match title_query (title p);
      content_match ← query_match content_query (content p);
      search_loop title_query content_query posts'
        (if title_match || content_match then matched_posts ++ [p] else matched_posts)
  end.

(** [GET /api/posts/search] with [request.args.get('title')] and
    [request.args.get('content')]; an absent parameter defaults to the empty
    string. *)
Definition search_posts (POSTS : list post) (title_arg content_arg : option string)
  : outcome :=
  let title_query := lower (default EmptyString title_arg) in
  let content_query := lower (default EmptyString content_arg) in
  match search_loop title_query content_query POSTS [] with
  | Ok matched_posts => respond (JPosts matched_posts) 200 POSTS
  | Raise e => escape e POSTS
  end.

(** ** Sequences of requests *)

Inductive request : Type :=
  | GetPosts (sort_field direction : option string)
  | AddPost (data : json)
  | DeletePost (post_id : Z)
  | UpdatePost (post_id : Z) (data : json)
  | SearchPosts (title_arg content_arg : option string).

Definition handle (POSTS : list post) (r : request) : outcome :=
  match r with
  | GetPosts sort_field direction => get_posts POSTS sort_field direction
  | AddPost data => add_post POSTS data
  | DeletePost post_id => delete_post POSTS post_id
  | UpdatePost post_id data => update_post POSTS post_id data
  | SearchPosts title_arg content_arg => search_posts POSTS title_arg content_arg
  end.

(** The list left in [POSTS] after serving the requests in order. *)
Definition run (POSTS : list post) (rs : list request) : list post :=
  foldl (λ s r, (handle s r).2) POSTS rs.

(** The states the store can be in: what the requests served since start-up
    have made of the seed. *)
Definition reachable (POSTS : list post) : Prop :=
  ∃ rs, run POSTS_seed rs = POSTS.

Definition ids (POSTS : list post) : list Z := id <$> POSTS.

(** ** Vocabulary of the specification *)

(** The data model: the [title] and the [content] of a post are text. *)
Definition is_text (v : json) : Prop := ∃ s, v = JStr s.
Definition text_post (p : post) : Prop := is_text (title p) ∧ is_text (content p).
Definition text_posts (POSTS : list post) : Prop := Forall text_post POSTS.

(** A payload whose [title] and [content], where it has them, are text, and a
    request that carries such a payload. *)
Definition text_payload (data : json) : Prop :=
  ∀ members k v,
    data = JObj members → k ∈ valid_fields → dict_get k members = Some v → is_text v.

Definition text_request (r : request) : Prop :=
  match r with
  | AddPost data | UpdatePost _ data => text_payload data
  | _ => True
  end.

(** The text a value holds (nothing for a value that is not text). *)
Definition text_of (v : json) : string :=
  match v with
  | JStr s => s
  | _ => EmptyString
  end.

(** The text of the field a listing is sorted by, and the key it is compared
    under. *)
Definition field_text (field : string) (p : post) : string :=
  match post_getitem p field with
  | Ok v => text_of v
  | Raise _ => EmptyString
  end.

Definition sort_key (field : string) (p : post) : string := lower (field_text field p).

(** Posts compared by the chosen field, case ignored. *)
Definition ci_le (field : string) : relation post :=
  λ p q, (sort_key field p ≤ sort_key field q)%string.
Definition ci_ge (field : string) : relation post := flip (ci_le field).

(** [q] occurs in [s] when case is ignored. *)
Definition ci_substring (q s : string) : Prop :=
  ∃ pre suf, lower s = pre +:+ lower q +:+ suf.

(** A post matches a search: a non-empty query occurs in its field. *)
Definition matches (title_query content_query : string) (p : post) : Prop :=
  (title_query ≠ EmptyString ∧ ci_substring title_query (text_of (title p))) ∨
  (content_query ≠ EmptyString ∧ ci_substring content_query (text_of (content p))).

(** The payloads [add_post] accepts: a JSON object that holds [title] and
    [content]. *)
Definition accepted (data : json) : Prop :=
  ∃ members t c, data = JObj members ∧ dict_get "title" members = Some t
                 ∧ dict_get "content" members = Some c.

(** [d] is the id a create would assign now: 1 on the empty collection, one
    more than the largest id present otherwise. *)
Definition next_id_is (d : Z) (POSTS : list post) : Prop :=
  (POSTS = [] ∧ d = 1) ∨
  (∃ m, m ∈ ids POSTS ∧ (∀ i, i ∈ ids POSTS → i ≤ m) ∧ d = m + 1).

(** Along the requests [rs] served from [POSTS] on, no create is accepted at
    a moment when [d] is the id a create would assign. *)
Fixpoint no_create_assigns (d : Z) (POSTS : list post) (rs : list request)
  : Prop :=
  match rs with
  | [] => True
  | r :: rs' =>
      match r with
      | AddPost data => ¬ (accepted data ∧ next_id_is d POSTS)
      | _ => True
      end ∧ no_create_assigns d (handle POSTS r).2 rs'
  end.

(** [d] is the id of no post before, between and after the requests [rs]
    served from [POSTS] on. *)
Fixpoint absent_throughout (d : Z) (POSTS : list post) (rs : list request)
  : Prop :=
  match rs with
  | [] => d ∉ ids POSTS
  | r :: rs' => (d ∉ ids POSTS) ∧ absent_throughout d (handle POSTS r).2 rs'
  end.

(** A post whose chosen field is there and is not text. *)
Definition non_text_field (field : string) (p : post) : Prop :=
  ∃ v, post_getitem p field = Ok v ∧ ¬ is_text v.

(** A post on which a search evaluates [lower] on a value that is not text:
    the query on that field is non-empty and the field is not text. *)
Definition blocks_search (title_query content_query : string) (p : post) : Prop :=
  (title_query ≠ EmptyString ∧ ¬ is_text (title p)) ∨
  (content_query ≠ EmptyString ∧ ¬ is_text (content p)).

(** * Properties *)

(** ** Strings *)

Section strings.
Implicit Types q s : string.

Lemma compare_refl s : String.compare s s = Eq.
Proof.
  pose proof (String.compare_antisym s s) as H.
  destruct (String.compare s s); simpl in H; congruence.
Qed.

Lemma ltb_irrefl s : String.ltb s s = false.
Proof. unfold String.ltb. by rewrite compare_refl. Qed.

(** [not (b < a)] is [a <= b]. *)
Lemma ltb_false_leb a b : String.ltb b a = false ↔ String.leb a b = true.
Proof.
  unfold String.ltb, String.leb. rewrite (String.compare_antisym b a).
  destruct (String.compare a b); simpl; split; congruence.
Qed.

Lemma ltb_true_leb a b : String.ltb a b = true → String.leb a b = true.
Proof. unfold String.ltb, String.leb. by destruct (String.compare a b). Qed.

Lemma str_truthy_true s : str_truthy s = true ↔ s ≠ EmptyString.
Proof. unfold str_truthy. destruct s; simpl; split; congruence. Qed.

Lemma str_truthy_false s : str_truthy s = false ↔ s = EmptyString.
Proof. unfold str_truthy. destruct s; simpl; split; congruence. Qed.

Lemma str_truthy_lower s : lower_keeps_empty → str_truthy (lower s) = str_truthy s.
Proof.
  intros Hlower. destruct (str_truthy s) eqn:Hs.
  - apply str_truthy_true. apply str_truthy_true in Hs.
    intros Hl. apply Hs. by apply (Hlower s).
  - apply str_truthy_false. apply str_truthy_false in Hs. by apply (Hlower s).
Qed.

Lemma app_cons c s t : String c s +:+ t = String c (s +:+ t).
Proof. reflexivity. Qed.

Lemma prefix_spec q s :
  String.prefix q s = true ↔ ∃ suf, s = q +:+ suf.
Proof.
  revert s. induction q as [|c q IH]; intros s.
  - split; [intros _; exists s; reflexivity | by destruct s].
  - destruct s as [|c' s]; simpl.
    + split; [done | intros [suf Hs]; discriminate].
    + setoid_rewrite app_cons. destruct (Ascii.ascii_dec c c') as [->|Hne].
      * rewrite IH. split; intros [suf Hs]; exists suf; congruence.
      * split; [done | intros [suf Hs]; congruence].
Qed.

(** [q in s] holds exactly when [s] is [pre + q + suf] for some [pre],
    [suf]. *)
Lemma str_contains_spec q s :
  str_contains q s = true ↔ ∃ pre suf, s = pre +:+ q +:+ suf.
Proof.
  induction s as [|c s IH].
  - cbn [str_contains]. rewrite orb_false_r, prefix_spec. split.
    + intros [suf Hs]. exists EmptyString, suf. exact Hs.
    + intros (pre & suf & Hs). destruct pre; [exists suf; exact Hs | discriminate].
  - cbn [str_contains]. rewrite orb_true_iff, prefix_spec, IH. split.
    + intros [[suf Hs] | (pre & suf & Hs)].
      * exists EmptyString, suf. exact Hs.
      * exists (String c pre), suf. rewrite app_cons. by rewrite Hs.
    + intros (pre & suf & Hs). destruct pre as [|c' pre].
      * left. exists suf. exact Hs.
      * right. exists pre, suf. rewrite app_cons in Hs. congruence.
Qed.
End strings.

(** ** The sort *)

Section sorting.
Context {A : Type}.
Implicit Types (x y : string * A) (l : list (string * A)) (k : string).

Lemma insert_by_key_perm x l : insert_by_key x l ≡ₚ x :: l.
Proof.
  induction l as [|y l IH]; simpl; [done|].
  destruct (String.ltb y.1 x.1); [|done].
  rewrite IH. apply Permutation_swap.
Qed.

Lemma stable_sort_perm l : stable_sort l ≡ₚ l.
Proof.
  induction l as [|x l IH]; simpl; [done|].
  fold (stable_sort l). by rewrite insert_by_key_perm, IH.
Qed.

Lemma HdRel_insert_by_key z x l :
  key_le z x → HdRel key_le z l → HdRel key_le z (insert_by_key x l).
Proof.
  intros Hzx Hz. destruct Hz as [|y l Hzy]; simpl; [by constructor|].
  destruct (String.ltb y.1 x.1); by constructor.
Qed.

Lemma insert_by_key_sorted x l :
  Sorted key_le l → Sorted key_le (insert_by_key x l).
Proof.
  induction 1 as [|y l Hl IH Hy]; simpl; [by repeat constructor|].
  destruct (String.ltb y.1 x.1) eqn:Hlt.
  - constructor; [done|]. apply HdRel_insert_by_key; [|done].
    apply Is_true_true, ltb_true_leb, Hlt.
  - repeat constructor; [done..|].
    apply Is_true_true, ltb_false_leb, Hlt.
Qed.

Lemma stable_sort_sorted l : Sorted key_le (stable_sort l).
Proof.
  induction l as [|x l IH]; simpl; [constructor|].
  by apply insert_by_key_sorted.
Qed.

(** Stability: the elements with a given key keep their order. *)
Lemma insert_by_key_filter k x l :
  filter (λ y, y.1 = k) (insert_by_key x l) = filter (λ y, y.1 = k) (x :: l).
Proof.
  induction l as [|y l IH]; simpl; [done|].
  destruct (String.ltb y.1 x.1) eqn:Hlt; [|done].
  rewrite (filter_cons _ y), IH, !filter_cons.
  destruct (decide (y.1 = k)) as [Hy|]; [|done].
  destruct (decide (x.1 = k)) as [Hx|]; [|done].
  rewrite Hy, Hx, ltb_irrefl in Hlt. discriminate.
Qed.

Lemma stable_sort_filter k l :
  filter (λ y, y.1 = k) (stable_sort l) = filter (λ y, y.1 = k) l.
Proof.
  induction l as [|x l IH]; simpl; [done|]. fold (stable_sort l).
  by rewrite insert_by_key_filter, !filter_cons, IH.
Qed.

Lemma sort_decorated_perm b l : sort_decorated b l ≡ₚ l.
Proof.
  destruct b; simpl; [|apply stable_sort_perm].
  by rewrite reverse_Permutation, stable_sort_perm, reverse_Permutation.
Qed.

Lemma sort_decorated_sorted (b : bool) l :
  Sorted (if b then key_ge else key_le) (sort_decorated b l).
Proof.
  destruct b; simpl; [|apply stable_sort_sorted].
  apply Sorted_reverse, stable_sort_sorted.
Qed.

Lemma sort_decorated_filter b k l :
  filter (λ y, y.1 = k) (sort_decorated b l) = filter (λ y, y.1 = k) l.
Proof.
  destruct b; simpl; [|apply stable_sort_filter].
  by rewrite filter_reverse, stable_sort_filter, filter_reverse, reverse_involutive.
Qed.
End sorting.

(** [list.sort] on elements whose keys can all be computed. *)
Section list_sort.
Context {A : Type} (key : A → result string) (kf : A → string).
Implicit Types (l : list A) (d : list (string * A)).

(** A decorated element carries the key of its element. *)
Let decorated_ok (y : string * A) : Prop := y.1 = kf y.2.

Lemma map_result_total l :
  Forall (λ a, key a = Ok (kf a)) l → map_result key l = Ok (kf <$> l).
Proof.
  induction 1 as [|a l Ha _ IH]; simpl; [done|].
  by rewrite Ha, IH.
Qed.

Lemma zip_keys l : zip (kf <$> l) l = (λ a, (kf a, a)) <$> l.
Proof. induction l as [|a l IH]; csimpl; [done|]. by rewrite IH. Qed.

Lemma decorated_ok_fmap l : Forall decorated_ok ((λ a, (kf a, a)) <$> l).
Proof. apply Forall_fmap, Forall_true. by intros a. Qed.

Lemma Sorted_undecorate (R : relation string) d :
  Forall decorated_ok d →
  Sorted (λ x y, R x.1 y.1) d → Sorted (λ a b, R (kf a) (kf b)) (d.*2).
Proof.
  intros Hd Hs. induction Hs as [|y d Hs IH Hy]; simpl; [constructor|].
  apply Forall_cons in Hd as [Hy1 Hd]. constructor; [by apply IH|].
  destruct Hy as [|z d Hyz]; simpl; constructor.
  apply Forall_cons in Hd as [Hz1 _].
  unfold decorated_ok in *. by rewrite <-Hy1, <-Hz1.
Qed.

Lemma filter_undecorate k d :
  Forall decorated_ok d →
  filter (λ a, kf a = k) (d.*2) = (filter (λ y, y.1 = k) d).*2.
Proof.
  induction 1 as [|y d Hy _ IH]; csimpl; [done|].
  rewrite !filter_cons, IH. unfold decorated_ok in Hy.
  destruct (decide (kf y.2 = k)), (decide (y.1 = k)); csimpl; congruence.
Qed.

Lemma list_sort_spec (reverse_sort : bool) l :
  Forall (λ a, key a = Ok (kf a)) l →
  ∃ l', list_sort key reverse_sort l = Ok l' ∧
    l' ≡ₚ l ∧
    Sorted (λ a b, if reverse_sort then (kf b ≤ kf a)%string
                   else (kf a ≤ kf b)%string) l' ∧
    ∀ k, filter (λ a, kf a = k) l' = filter (λ a, kf a = k) l.
Proof.
  intros Hkeys. unfold list_sort. rewrite (map_result_total _ Hkeys). simpl.
  rewrite zip_keys. set (d := (λ a, (kf a, a)) <$> l).
  assert (d.*2 = l) as Hd2.
  { unfold d. rewrite <-list_fmap_compose. apply list_fmap_id. }
  assert (Forall decorated_ok (sort_decorated reverse_sort d)) as Hok.
  { rewrite sort_decorated_perm. apply decorated_ok_fmap. }
  eexists; split; [done|]. split_and!.
  - by rewrite sort_decorated_perm, Hd2.
  - pose proof (sort_decorated_sorted reverse_sort d) as Hs.
    destruct reverse_sort.
    + by apply (Sorted_undecorate (λ s1 s2, (s2 ≤ s1)%string)).
    + by apply (Sorted_undecorate (λ s1 s2, (s1 ≤ s2)%string)).
  - intros k. rewrite filter_undecorate, sort_decorated_filter by done.
    rewrite <-filter_undecorate by apply decorated_ok_fmap. by rewrite Hd2.
Qed.
End list_sort.

(** ** The store *)

Section store.
Implicit Types (POSTS : list post) (p : post) (post_id : Z) (data : json).

Lemma find_post_Some POSTS post_id i p :
  find_post POSTS post_id = Some (i, p) ↔
  POSTS !! i = Some p ∧ id p = post_id ∧
  ∀ j q, POSTS !! j = Some q → (j < i)%nat → id q ≠ post_id.
Proof. unfold find_post. by rewrite list_find_Some. Qed.

Lemma find_post_None POSTS post_id :
  find_post POSTS post_id = None ↔ post_id ∉ ids POSTS.
Proof.
  unfold find_post, ids. rewrite list_find_None, Forall_forall, list_elem_of_fmap.
  split.
  - intros H (p & -> & Hp). by apply (H p).
  - intros H p Hp Hid. apply H. by exists p.
Qed.

Lemma find_post_elem_of POSTS post_id :
  post_id ∈ ids POSTS → ∃ i p, find_post POSTS post_id = Some (i, p).
Proof.
  intros Hin. destruct (find_post POSTS post_id) as [[i p]|] eqn:Hf; [eauto|].
  by apply find_post_None in Hf.
Qed.

Lemma py_max_le x l : x ≤ py_max x l.
Proof.
  revert x. induction l as [|y l IH]; intros x; simpl; [lia|].
  specialize (IH (Z.max x y)). lia.
Qed.

Lemma py_max_ge x l y : y ∈ l → y ≤ py_max x l.
Proof.
  revert x. induction l as [|z l IH]; intros x Hy; simpl.
  - by apply elem_of_nil in Hy.
  - apply elem_of_cons in Hy as [->|Hy]; [|by apply IH].
    pose proof (py_max_le (Z.max x z) l). lia.
Qed.

Lemma py_max_elem_of x l : py_max x l ∈ x :: l.
Proof.
  revert x. induction l as [|y l IH]; intros x; simpl; [by left|].
  specialize (IH (Z.max x y)).
  apply elem_of_cons in IH as [Heq|IH]; [|by do 2 right].
  rewrite Heq. destruct (Z.max_spec x y) as [[_ ->]|[_ ->]]; [right|]; by left.
Qed.

(** The id given to a new post is above every id in the collection. *)
Lemma new_id_gt POSTS i : i ∈ ids POSTS → i < new_id POSTS.
Proof.
  destruct POSTS as [|p ps]; [by intros ?%elem_of_nil|].
  unfold ids, new_id. rewrite fmap_cons. intros [->|Hi]%elem_of_cons.
  - pose proof (py_max_le (id p) (id <$> ps)). lia.
  - pose proof (py_max_ge (id p) _ _ Hi). lia.
Qed.

Lemma new_id_fresh POSTS : new_id POSTS ∉ ids POSTS.
Proof. intros ?%new_id_gt. lia. Qed.

(** The new id is one more than the largest id present. *)
Lemma new_id_max POSTS :
  POSTS ≠ [] →
  ∃ m, m ∈ ids POSTS ∧ (∀ i, i ∈ ids POSTS → i ≤ m) ∧ new_id POSTS = m + 1.
Proof.
  destruct POSTS as [|p ps]; [done|]. intros _.
  exists (py_max (id p) (id <$> ps)). unfold ids. rewrite fmap_cons.
  split_and!; [apply py_max_elem_of| |done].
  intros i [->|Hi]%elem_of_cons; [apply py_max_le | by apply py_max_ge].
Qed.

(** What [add_post] does with a JSON object. *)
Lemma add_post_object POSTS members :
  add_post POSTS (JObj members) =
  match dict_get "title" members, dict_get "content" members with
  | Some t, Some c =>
      respond (JPost (Post (new_id POSTS) t c)) 201
        (POSTS ++ [Post (new_id POSTS) t c])
  | _, _ => respond (JError "Missing title or content") 400 POSTS
  end.
Proof.
  destruct members as [|m members]; [done|].
  unfold add_post, missing_fields, py_in, py_getitem.
  cbn [truthy negb mbind result_bind].
  destruct (dict_get "title" (m :: members)) as [t|];
    destruct (dict_get "content" (m :: members)) as [c|]; done.
Qed.

(** [add_post] leaves the collection as it is or appends one post, whose id
    is the next one. *)
Lemma add_post_state POSTS data :
  (add_post POSTS data).2 = POSTS ∨
  ∃ t c, (add_post POSTS data).2 = POSTS ++ [Post (new_id POSTS) t c].
Proof.
  unfold add_post. destruct (missing_fields data) as [[]|]; [by left| |by left].
  destruct (t ← py_getitem data "title"; c ← py_getitem data "content"; Ok (t, c))
    as [[t c]|]; [right; by exists t, c | by left].
Qed.

(** A successful delete splits the collection around the first post with
    the id. *)
Lemma delete_post_found POSTS post_id :
  post_id ∈ ids POSTS →
  ∃ before p after,
    POSTS = before ++ p :: after ∧ id p = post_id ∧ (post_id ∉ ids before) ∧
    delete_post POSTS post_id
      = respond (JMessage (deleted_msg post_id)) 200 (before ++ after).
Proof.
  intros (i & p & Hf)%find_post_elem_of.
  unfold delete_post. rewrite Hf.
  apply find_post_Some in Hf as (Hi & Hid & Hmin).
  exists (take i POSTS), p, (drop (S i) POSTS).
  split_and!; [by rewrite take_drop_middle|done| |by rewrite delete_take_drop].
  unfold ids. intros (q & Hq & [j Hj]%list_elem_of_lookup)%list_elem_of_fmap.
  apply lookup_take_Some in Hj as [Hj Hlt]. by eapply Hmin.
Qed.

Lemma delete_post_not_found POSTS post_id :
  post_id ∉ ids POSTS →
  delete_post POSTS post_id = respond (JError (not_found_msg post_id)) 404 POSTS.
Proof. intros Hf%find_post_None. unfold delete_post. by rewrite Hf. Qed.

Lemma delete_post_state POSTS post_id :
  (delete_post POSTS post_id).2 = POSTS ∨
  ∃ i, (delete_post POSTS post_id).2 = delete i POSTS.
Proof.
  unfold delete_post. destruct (find_post POSTS post_id) as [[i p]|];
    [right; by exists i | by left].
Qed.

(** [update_post] changes no id. *)
Lemma update_post_ids POSTS post_id data :
  ids (update_post POSTS post_id data).2 = ids POSTS.
Proof.
  unfold update_post.
  destruct (find_post POSTS post_id) as [[i old]|] eqn:Hf; [|done].
  destruct (t ← py_get data "title" (title old);
            c ← py_get data "content" (content old); Ok (t, c))
    as [[t c]|]; [|done].
  apply find_post_Some in Hf as (Hi & _ & _).
  unfold respond, ids. cbn [snd]. rewrite list_fmap_insert. cbn [id].
  apply list_insert_id. by rewrite list_lookup_fmap, Hi.
Qed.

Lemma get_posts_state POSTS sort_field direction :
  (get_posts POSTS sort_field direction).2 = POSTS.
Proof.
  unfold get_posts.
  destruct (given_and_not_in sort_field valid_fields); [done|].
  destruct (given_and_not_in direction valid_directions); [done|].
  destruct sort_field as [field|]; [|done].
  destruct (str_truthy field); [|done]. by destruct (list_sort _ _ _).
Qed.

Lemma search_posts_state POSTS title_arg content_arg :
  (search_posts POSTS title_arg content_arg).2 = POSTS.
Proof. unfold search_posts. by destruct (search_loop _ _ _ _). Qed.

(** What a request does to the ids of the collection: nothing, or one id
    is taken out, or the next id is appended by a create. *)
Lemma handle_ids POSTS r :
  ids (handle POSTS r).2 = ids POSTS ∨
  (∃ i, ids (handle POSTS r).2 = delete i (ids POSTS)) ∨
  (∃ data, r = AddPost data ∧ ids (handle POSTS r).2 = ids POSTS ++ [new_id POSTS]).
Proof.
  destruct r as [sort_field direction|data|post_id|post_id data|t c]; simpl.
  - left. by rewrite get_posts_state.
  - destruct (add_post_state POSTS data) as [->|(t & c & ->)]; [by left|].
    right; right. exists data. split; [done|]. unfold ids. by rewrite fmap_app.
  - destruct (delete_post_state POSTS post_id) as [->|[i ->]]; [by left|].
    right; left. exists i. apply list_fmap_delete.
  - left. apply update_post_ids.
  - left. by rewrite search_posts_state.
Qed.

Lemma handle_NoDup POSTS r : NoDup (ids POSTS) → NoDup (ids (handle POSTS r).2).
Proof.
  intros Hnd.
  destruct (handle_ids POSTS r) as [->|[[i ->]|(data & _ & ->)]]; [done| |].
  - eapply sublist_NoDup; [done|apply sublist_delete].
  - apply NoDup_app. split_and!; [done| |apply NoDup_singleton].
    intros i Hi ->%list_elem_of_singleton. by apply new_id_fresh in Hi.
Qed.

Lemma run_NoDup POSTS rs : NoDup (ids POSTS) → NoDup (ids (run POSTS rs)).
Proof.
  revert POSTS. induction rs as [|r rs IH]; intros POSTS Hnd; [done|].
  apply IH, handle_NoDup, Hnd.
Qed.

Lemma reachable_NoDup POSTS : reachable POSTS → NoDup (ids POSTS).
Proof.
  intros [rs <-]. apply run_NoDup. unfold ids, POSTS_seed. simpl.
  apply NoDup_cons. split; [|apply NoDup_singleton].
  by intros [=]%list_elem_of_singleton.
Qed.

Lemma next_id_is_new_id d POSTS : next_id_is d POSTS ↔ new_id POSTS = d.
Proof.
  split.
  - intros [[-> ->]|(m & Hm & Hmax & ->)]; [done|].
    destruct (new_id_max POSTS) as (m' & Hm' & Hmax' & ->).
    { intros ->. by apply elem_of_nil in Hm. }
    specialize (Hmax m' Hm'). specialize (Hmax' m Hm). lia.
  - intros <-. destruct POSTS as [|p ps]; [by left|].
    right. destruct (new_id_max (p :: ps)) as (m & Hm & Hmax & ->); [done|].
    by exists m.
Qed.

(** [add_post] appends a post with the next id for an accepted payload and
    leaves the collection as it is for any other. *)
Lemma add_post_cases POSTS data :
  (accepted data ∧
   ∃ t c, (add_post POSTS data).2 = POSTS ++ [Post (new_id POSTS) t c]) ∨
  (¬ accepted data ∧ (add_post POSTS data).2 = POSTS).
Proof.
  destruct data as [| | | | | |members];
    try (right; split; [by intros (? & ? & ? & [=] & _)|];
         unfold add_post; by destruct (missing_fields _) as [[]|]).
  rewrite add_post_object.
  destruct (dict_get "title" members) as [t|] eqn:Ht;
    [destruct (dict_get "content" members) as [c|] eqn:Hc|].
  - left. split; [by exists members, t, c | by exists t, c].
  - right. split; [|done]. intros (? & ? & ? & [= <-] & _ & ?). congruence.
  - right. split; [|done]. intros (? & ? & ? & [= <-] & ? & _). congruence.
Qed.

(** An absent id comes into the collection with a request exactly when the
    request is an accepted create served while the id is the next one. *)
Lemma handle_assigns d POSTS r :
  d ∉ ids POSTS →
  d ∈ ids (handle POSTS r).2 ↔
  ∃ data, r = AddPost data ∧ accepted data ∧ next_id_is d POSTS.
Proof.
  intros Hd. destruct r as [sort_field direction|data|post_id|post_id data|t c].
  - cbn [handle]. rewrite get_posts_state. split; [done | by intros (? & [=] & _)].
  - cbn [handle]. setoid_rewrite next_id_is_new_id.
    destruct (add_post_cases POSTS data) as [[Hacc (t & c & ->)]|[Hacc ->]].
    + unfold ids. rewrite fmap_app, elem_of_app, list_fmap_singleton,
        list_elem_of_singleton. cbn [id].
      split.
      * intros [?| ->]; [done|]. by exists data.
      * intros (? & _ & _ & <-). by right.
    + split; [done|]. by intros (? & [= <-] & ? & _).
  - split; [|by intros (? & [=] & _)]. intros Hin. destruct Hd.
    destruct (delete_post_state POSTS post_id) as [Hst|[i Hst]];
      cbn [handle] in Hin; rewrite Hst in Hin; [done|].
    unfold ids in *. rewrite list_fmap_delete in Hin.
    eapply elem_of_sublist; [exact Hin | apply sublist_delete].
  - cbn [handle]. rewrite update_post_ids. split; [done | by intros (? & [=] & _)].
  - cbn [handle]. rewrite search_posts_state. split; [done | by intros (? & [=] & _)].
Qed.

(** Requests that carry text keep the collection within the data model. *)
Lemma handle_text_posts POSTS r :
  text_posts POSTS → text_request r → text_posts (handle POSTS r).2.
Proof.
  intros Htext Hr.
  destruct r as [sort_field direction|data|post_id|post_id data|t c]; simpl.
  - by rewrite get_posts_state.
  - destruct data as [| | | | | |members];
      try (unfold add_post; by destruct (missing_fields _) as [[]|]).
    rewrite add_post_object.
    destruct (dict_get "title" members) as [t|] eqn:Ht; [|done].
    destruct (dict_get "content" members) as [c|] eqn:Hc; [|done].
    apply Forall_app. split; [done|]. apply Forall_singleton. split; simpl.
    + eapply (Hr members "title"); [done| |done]. by left.
    + eapply (Hr members "content"); [done| |done]. right; by left.
  - destruct (delete_post_state POSTS post_id) as [->|[i ->]]; [done|].
    by apply Forall_delete.
  - unfold update_post.
    destruct (find_post POSTS post_id) as [[i old]|] eqn:Hf; [|done].
    destruct data as [| | | | | |members]; try done. simpl.
    apply find_post_Some in Hf as (Hi & _ & _).
    destruct (Forall_lookup_1 _ _ _ _ Htext Hi) as [Ht Hc].
    apply Forall_insert; [done|]. split; simpl.
    + destruct (dict_get "title" members) as [t|] eqn:Hget; [|done].
      eapply (Hr members "title"); [done| |done]. by left.
    + destruct (dict_get "content" members) as [c|] eqn:Hget; [|done].
      eapply (Hr members "content"); [done| |done]. right; by left.
  - by rewrite search_posts_state.
Qed.

Lemma run_text_posts POSTS rs :
  text_posts POSTS → Forall text_request rs → text_posts (run POSTS rs).
Proof.
  revert POSTS. induction rs as [|r rs IH]; intros POSTS Htext Hrs; [done|].
  apply Forall_cons in Hrs as [Hr Hrs]. apply IH; [|done].
  by apply handle_text_posts.
Qed.

Lemma seed_text_posts : text_posts POSTS_seed.
Proof. repeat constructor; by eexists. Qed.

Lemma reachable_text_posts rs :
  Forall text_request rs → text_posts (run POSTS_seed rs).
Proof. apply run_text_posts, seed_text_posts. Qed.

Lemma absent_throughout_head d POSTS rs :
  absent_throughout d POSTS rs → d ∉ ids POSTS.
Proof. destruct rs; [done | by intros [? _]]. Qed.

Lemma run_absent d POSTS rs :
  d ∉ ids POSTS →
  absent_throughout d POSTS rs ↔ no_create_assigns d POSTS rs.
Proof.
  revert POSTS. induction rs as [|r rs IH]; intros POSTS Hd; [done|].
  cbn [absent_throughout no_create_assigns].
  pose proof (handle_assigns d POSTS r Hd) as Hstep. split.
  - intros [_ Hrs].
    assert (d ∉ ids (handle POSTS r).2) as Hd'
      by (by eapply absent_throughout_head).
    split; [|by apply IH].
    destruct r; try done. intros [Hacc Hnext]. apply Hd', Hstep. by eexists.
  - intros [Hr Hrs]. split; [done|].
    assert (d ∉ ids (handle POSTS r).2) as Hd'.
    { intros (data & -> & Hacc & Hnext)%Hstep. by apply Hr. }
    by apply IH.
Qed.
End store.

(** ** Create *)

(** C2.  For every collection and every payload object holding [title] and
    [content], [add_post] answers 201 with the created post and leaves the
    collection with that post appended at its end; the post carries the
    payload's title and content, and its id is 1 when the collection was empty
    and otherwise one more than the largest id in the collection. *)
Theorem add_post_assigns_next_id (POSTS : list post) members t c :
  dict_get "title" members = Some t →
  dict_get "content" members = Some c →
  ∃ new_post,
    add_post POSTS (JObj members)
      = respond (JPost new_post) 201 (POSTS ++ [new_post]) ∧
    title new_post = t ∧ content new_post = c ∧
    (POSTS = [] → id new_post = 1) ∧
    (POSTS ≠ [] →
     ∃ m, m ∈ ids POSTS ∧ (∀ i, i ∈ ids POSTS → i ≤ m) ∧ id new_post = m + 1).
Proof.
  intros Ht Hc. exists (Post (new_id POSTS) t c).
  rewrite add_post_object, Ht, Hc. split_and!; [done..| |].
  - by intros ->.
  - apply new_id_max.
Qed.

(** C10.  [add_post] looks at the presence of the keys only.  A payload object
    whose [title] and [content] are both the empty string is accepted: the
    post is stored with the empty title and content and gets the next id.  For
    a payload that is absent ([None]) or a JSON object, the answer is the
    400 error for a missing field exactly when the payload is absent, is the
    empty object, or lacks one of the two keys. *)
Theorem add_post_checks_presence_only :
  (∀ (POSTS : list post) members,
     dict_get "title" members = Some (JStr EmptyString) →
     dict_get "content" members = Some (JStr EmptyString) →
     let new_post := Post (new_id POSTS) (JStr EmptyString) (JStr EmptyString) in
     add_post POSTS (JObj members)
       = respond (JPost new_post) 201 (POSTS ++ [new_post])) ∧
  (∀ (POSTS : list post) data,
     data = JNull ∨ (∃ members, data = JObj members) →
     add_post POSTS data = respond (JError "Missing title or content") 400 POSTS
     ↔ data = JNull ∨ data = JObj [] ∨
       ∃ members, data = JObj members ∧
         (dict_get "title" members = None ∨ dict_get "content" members = None)).
Proof.
  split.
  - intros POSTS members Ht Hc. simpl. by rewrite add_post_object, Ht, Hc.
  - intros POSTS data [->|[members ->]]; [by split; [left|]|].
    rewrite add_post_object. split.
    + destruct (dict_get "title" members) as [t|] eqn:Ht;
        [destruct (dict_get "content" members) as [c|] eqn:Hc|].
      * unfold respond. intros [=].
      * intros _. right; right. exists members. auto.
      * intros _. right; right. exists members. auto.
    + intros [[=]|[[= ->]|(members' & [= <-] & [-> | ->])]]; [done..|].
      by destruct (dict_get "title" members).
Qed.

(** ** Delete *)

(** C6.  When a post with the id exists, [delete_post] takes the first such
    post out of the collection and nothing else (the posts before and after it
    stay as they are, in order, and the length drops by one) and answers 200
    with a message naming the id; when none exists it answers 404 with an error
    naming the id and leaves the collection as it is. *)
Theorem delete_post_removes_exactly_one (POSTS : list post) (post_id : Z) :
  (post_id ∈ ids POSTS →
   ∃ before p after,
     POSTS = before ++ p :: after ∧ id p = post_id ∧ (post_id ∉ ids before) ∧
     delete_post POSTS post_id
       = respond (JMessage ("Post with id " +:+ str_of_int post_id
                              +:+ " has been deleted successfully."))
           200 (before ++ after) ∧
     S (length (before ++ after)) = length POSTS) ∧
  (post_id ∉ ids POSTS →
   delete_post POSTS post_id
     = respond (JError ("Post with id " +:+ str_of_int post_id +:+ " not found."))
         404 POSTS).
Proof.
  split.
  - intros (before & p & after & -> & Hid & Hbefore & Hdel)%delete_post_found.
    exists before, p, after. split_and!; [done..|].
    rewrite !length_app. simpl. lia.
  - apply delete_post_not_found.
Qed.

(** ** Update *)

(** C5.  When a post with the id exists and the payload is a JSON object,
    [update_post] changes the first post with that id, in place: a field the
    payload holds takes the payload's value, a field it omits keeps its prior
    value, the id stays; every other position of the collection and its length
    are unchanged; the answer is 200 with the id, title and content of the post
    as updated. *)
Theorem update_post_overwrites_given_fields (POSTS : list post) (post_id : Z) members :
  post_id ∈ ids POSTS →
  ∃ (i : nat) (old new : post) (POSTS' : list post),
    update_post POSTS post_id (JObj members) = respond (JPost new) 200 POSTS' ∧
    POSTS !! i = Some old ∧ id old = post_id ∧
    (∀ j q, POSTS !! j = Some q → (j < i)%nat → id q ≠ post_id) ∧
    POSTS' !! i = Some new ∧
    id new = id old ∧
    (∀ t, dict_get "title" members = Some t → title new = t) ∧
    (dict_get "title" members = None → title new = title old) ∧
    (∀ c, dict_get "content" members = Some c → content new = c) ∧
    (dict_get "content" members = None → content new = content old) ∧
    length POSTS' = length POSTS ∧
    (∀ j, j ≠ i → POSTS' !! j = POSTS !! j).
Proof.
  intros (i & old & Hf)%find_post_elem_of.
  unfold update_post. rewrite Hf. simpl.
  apply find_post_Some in Hf as (Hi & Hid & Hmin).
  eexists i, old, _, _. split; [by rewrite <-Hid|].
  split_and!; try done.
  - apply list_lookup_insert_eq. by eapply lookup_lt_Some.
  - by intros t ->.
  - by intros ->.
  - by intros c ->.
  - by intros ->.
  - apply length_insert.
  - intros j Hj. by apply list_lookup_insert_ne.
Qed.

(** ** List *)

Section listing.
Implicit Types (POSTS : list post) (p : post) (field : string).

#[global] Instance ci_le_trans field : Transitive (ci_le field).
Proof. intros p q r. unfold ci_le. apply transitivity. Qed.

#[global] Instance ci_ge_trans field : Transitive (ci_ge field).
Proof. intros p q r Hpq Hqr. unfold ci_ge, flip in *. by etrans. Qed.

(** The sort key of a post whose fields are text. *)
Lemma sort_key_text field p :
  field ∈ valid_fields → text_post p →
  (v ← post_getitem p field; py_lower v) = Ok (sort_key field p).
Proof.
  intros Hfield [[t Ht] [c Hc]]. unfold sort_key, field_text.
  apply elem_of_cons in Hfield as [->|Hfield];
    [|apply list_elem_of_singleton in Hfield as ->];
    unfold post_getitem; simpl; [rewrite Ht | rewrite Hc]; done.
Qed.

Lemma valid_field_given field :
  field ∈ valid_fields → given_and_not_in (Some field) valid_fields = false
                        ∧ str_truthy field = true.
Proof.
  intros Hfield. split.
  - simpl. by rewrite (bool_decide_eq_true_2 _ Hfield), andb_false_r.
  - apply elem_of_cons in Hfield as [->|Hfield];
      [|apply list_elem_of_singleton in Hfield as ->]; done.
Qed.

Lemma valid_direction_given direction :
  direction ∈ [None; Some "asc"; Some "desc"] →
  given_and_not_in direction valid_directions = false.
Proof.
  intros Hd. repeat (apply elem_of_cons in Hd as [->|Hd]); [done..|].
  by apply elem_of_nil in Hd.
Qed.
End listing.

(** C9.  When [sort] is absent (and [direction] is absent or a valid
    direction), [get_posts] answers 200 with all posts in the order of the
    collection, whatever the direction, and leaves the collection as it is. *)
Theorem get_posts_without_sort (POSTS : list post) direction :
  direction ∈ [None; Some "asc"; Some "desc"] →
  get_posts POSTS None direction = respond (JPosts POSTS) 200 POSTS.
Proof.
  intros Hd%valid_direction_given. unfold get_posts. simpl. by rewrite Hd.
Qed.

(** C7, amended.  [get_posts] answers 400 with an error, leaving the collection
    as it is, exactly when [sort] is given, non-empty and neither [title] nor
    [content], or [direction] is given, non-empty and neither [asc] nor
    [desc].  A parameter given as the empty string is treated as an absent
    one. *)
Theorem get_posts_rejects_invalid_parameter :
  (∀ (POSTS : list post) sort_field direction,
     (∃ s, sort_field = Some s ∧ s ≠ EmptyString ∧ s ∉ valid_fields) ∨
     (∃ d, direction = Some d ∧ d ≠ EmptyString ∧ d ∉ valid_directions)
     ↔ ∃ msg, get_posts POSTS sort_field direction = respond (JError msg) 400 POSTS) ∧
  (∀ (POSTS : list post) sort_field direction,
     get_posts POSTS (Some EmptyString) direction = get_posts POSTS None direction ∧
     get_posts POSTS sort_field (Some EmptyString) = get_posts POSTS sort_field None).
Proof.
  assert (∀ o l, given_and_not_in o l = true
                 ↔ ∃ s, o = Some s ∧ s ≠ EmptyString ∧ s ∉ l) as Hgiven.
  { intros [s|] l; simpl.
    - rewrite andb_true_iff, negb_true_iff, bool_decide_eq_false, str_truthy_true.
      split; [intros [??]; by exists s | by intros (? & [= <-] & ? & ?)].
    - split; [done | by intros (? & [=] & _)]. }
  split.
  - intros POSTS sort_field direction. rewrite <-!Hgiven. unfold get_posts.
    destruct (given_and_not_in sort_field valid_fields);
      [split; [eauto | by left]|].
    destruct (given_and_not_in direction valid_directions);
      [split; [eauto | by right]|].
    split; [by intros [[=]|[=]]|]. intros [msg Hget]. exfalso.
    destruct sort_field as [field|]; [|discriminate].
    destruct (str_truthy field); [|discriminate].
    by destruct (list_sort _ _ _).
  - intros POSTS sort_field direction. split; [done|].
    unfold get_posts. simpl.
    destruct (given_and_not_in sort_field valid_fields); [done|].
    destruct sort_field as [field|]; [|done].
    by destruct (str_truthy field).
Qed.


(** ** Search *)

Section search.
Implicit Types (POSTS posts matched_posts : list post) (p : post) (q s : string).

#[global] Instance ci_substring_dec q s : Decision (ci_substring q s).
Proof.
  refine (cast_if (decide (str_contains (lower q) (lower s) = true)));
    unfold ci_substring; by rewrite <-str_contains_spec.
Defined.

#[global] Instance matches_dec title_query content_query p :
  Decision (matches title_query content_query p).
Proof. unfold matches. apply _. Defined.

(** The test made on one field that holds text. *)
Lemma query_match_text q s :
  lower_keeps_empty →
  query_match (lower q) (JStr s)
  = Ok (bool_decide (q ≠ EmptyString ∧ ci_substring q s)).
Proof.
  intros Hlower. unfold query_match. rewrite str_truthy_lower by done.
  destruct (str_truthy q) eqn:Hq; cbn [mbind result_bind py_lower].
  - apply str_truthy_true in Hq. f_equal. symmetry.
    destruct (str_contains (lower q) (lower s)) eqn:Hin.
    + apply bool_decide_eq_true. split; [done|].
      unfold ci_substring. by rewrite <-str_contains_spec.
    + apply bool_decide_eq_false. intros [_ Hsub].
      unfold ci_substring in Hsub. rewrite <-str_contains_spec in Hsub.
      congruence.
  - apply str_truthy_false in Hq. f_equal. symmetry.
    apply bool_decide_eq_false. by intros [? _].
Qed.

(** An empty query looks at no field. *)
Lemma query_match_empty v :
  lower_keeps_empty → query_match (lower EmptyString) v = Ok false.
Proof.
  intros Hlower. unfold query_match.
  by rewrite (proj2 (Hlower EmptyString) eq_refl).
Qed.

Lemma search_loop_text title_query content_query posts matched_posts :
  lower_keeps_empty →
  text_posts posts →
  search_loop (lower title_query) (lower content_query) posts matched_posts
  = Ok (matched_posts ++ filter (matches title_query content_query) posts).
Proof.
  intros Hlower Htext. revert matched_posts.
  induction Htext as [|p posts [[t Ht] [c Hc]] _ IH]; intros matched_posts.
  - simpl. by rewrite app_nil_r.
  - cbn [search_loop]. rewrite Ht, Hc, !query_match_text by done.
    cbn [mbind result_bind]. rewrite IH, filter_cons.
    assert (matches title_query content_query p ↔
            (title_query ≠ EmptyString ∧ ci_substring title_query t) ∨
            (content_query ≠ EmptyString ∧ ci_substring content_query c))
      as Hiff by (unfold matches; by rewrite Ht, Hc).
    destruct (decide (matches title_query content_query p)) as [Hm|Hm];
      rewrite Hiff in Hm.
    + destruct Hm as [Hm|Hm]; rewrite (bool_decide_eq_true_2 _ Hm);
        rewrite ?orb_true_r; cbn [orb]; by rewrite <-app_assoc.
    + rewrite !bool_decide_eq_false_2 by tauto. done.
Qed.


(** On text, the loop never raises, whatever [lower] is. *)
Lemma search_loop_answers title_query content_query posts matched_posts :
  text_posts posts →
  ∃ matched, search_loop title_query content_query posts matched_posts = Ok matched.
Proof.
  intros Htext. revert matched_posts.
  induction Htext as [|p posts [[t Ht] [c Hc]] _ IH]; intros matched_posts;
    [by eexists|].
  cbn [search_loop]. rewrite Ht, Hc. unfold query_match.
  destruct (str_truthy title_query), (str_truthy content_query);
    cbn [mbind result_bind py_lower]; apply IH.
Qed.
End search.


(** ** Ids over the life of the store *)

(** C8.  In every state the requests can bring the store to from the seed,
    the ids of the collection are pairwise distinct.  A request leaves the
    list of ids as it is, takes one id out of it, or (a create) appends an id
    above every id in it; [update_post] leaves it as it is. *)
Theorem reachable_ids_distinct :
  (∀ POSTS : list post, reachable POSTS → NoDup (ids POSTS)) ∧
  (∀ (POSTS : list post) (r : request),
     ids (handle POSTS r).2 = ids POSTS ∨
     (∃ i : nat, ids (handle POSTS r).2 = delete i (ids POSTS)) ∨
     (∃ data new_id, r = AddPost data ∧
        ids (handle POSTS r).2 = ids POSTS ++ [new_id] ∧
        ∀ i, i ∈ ids POSTS → i < new_id)) ∧
  (∀ (POSTS : list post) post_id data,
     ids (update_post POSTS post_id data).2 = ids POSTS).
Proof.
  split_and!.
  - apply reachable_NoDup.
  - intros POSTS r.
    destruct (handle_ids POSTS r) as [?|[?|(data & ? & ?)]]; [by left|by right; left|].
    right; right. exists data, (new_id POSTS). split_and!; [done..|].
    apply new_id_gt.
  - apply update_post_ids.
Qed.

(** C1, amended.  In a state the store can be in, deleting a post that is
    there answers 200 and leaves a collection without its id.  Through the
    requests served afterwards the id stays out of the collection (before,
    between and after them) exactly when none of them is a create that is
    accepted at a moment when the id is the one a create would assign: the
    collection is empty and the id is 1, or the largest id present is the id
    minus one. *)
Theorem deleted_id_absent_until_reassigned
    (POSTS : list post) (d : Z) (rs : list request) :
  reachable POSTS →
  d ∈ ids POSTS →
  let POSTS1 := (delete_post POSTS d).2 in
  delete_post POSTS d
    = respond (JMessage ("Post with id " +:+ str_of_int d
                           +:+ " has been deleted successfully.")) 200 POSTS1 ∧
  (d ∉ ids POSTS1) ∧
  (absent_throughout d POSTS1 rs ↔ no_create_assigns d POSTS1 rs).
Proof.
  intros Hnd%reachable_NoDup
    (before & p & after & -> & Hid & Hbefore & Hdel)%delete_post_found POSTS1.
  subst POSTS1. rewrite Hdel. cbn [snd respond].
  assert (d ∉ ids (before ++ after)) as Habsent.
  { unfold ids in *. rewrite fmap_app, fmap_cons, Hid in Hnd.
    apply NoDup_app in Hnd as (_ & _ & [Hafter _]%NoDup_cons).
    rewrite fmap_app. by intros [?|?]%elem_of_app. }
  split_and!; [done..|]. by apply run_absent.
Qed.

(** * Further properties of the handlers *)

(** ** Create: which payloads are accepted, refused, or make it raise *)

Section create_outcomes.
Implicit Types (POSTS : list post) (data : json).

Lemma existsb_is_str k items : existsb (is_str k) items = true ↔ JStr k ∈ items.
Proof.
  rewrite existsb_exists. split.
  - intros (v & Hin%list_elem_of_In & Hv). destruct v; try done.
    simpl in Hv. by apply String.eqb_eq in Hv as ->.
  - intros Hin. exists (JStr k). split; [by apply list_elem_of_In|].
    simpl. apply String.eqb_refl.
Qed.

(** A created post carries the next id and is the last of the collection. *)
Lemma add_post_created_inv POSTS data p POSTS' :
  add_post POSTS data = respond (JPost p) 201 POSTS' →
  POSTS' = POSTS ++ [p] ∧ id p = new_id POSTS ∧
  ∃ members, data = JObj members ∧ dict_get "title" members = Some (title p)
             ∧ dict_get "content" members = Some (content p).
Proof.
  destruct data as [| | | | | |members];
    try (unfold add_post; by destruct (missing_fields _) as [[]|]).
  rewrite add_post_object.
  destruct (dict_get "title" members) as [t|] eqn:Ht; [|done].
  destruct (dict_get "content" members) as [c|] eqn:Hc; [|done].
  intros [= <- <-]. split_and!; [done..|]. by exists members.
Qed.
End create_outcomes.

(** X1.  [add_post] creates a post exactly when the payload is a JSON object
    that holds both [title] and [content]; for every other payload the
    collection is left as it is. *)
Theorem add_post_creates_iff (POSTS : list post) (data : json) :
  ((∃ members t c, data = JObj members ∧ dict_get "title" members = Some t
                   ∧ dict_get "content" members = Some c)
   ↔ ∃ p, add_post POSTS data = respond (JPost p) 201 (POSTS ++ [p])) ∧
  ((add_post POSTS data).2 = POSTS ∨
   ∃ p, add_post POSTS data = respond (JPost p) 201 (POSTS ++ [p])).
Proof.
  split.
  - split.
    + intros (members & t & c & -> & Ht & Hc).
      exists (Post (new_id POSTS) t c). by rewrite add_post_object, Ht, Hc.
    + intros (p & (_ & _ & members & -> & Ht & Hc)%add_post_created_inv).
      by exists members, (title p), (content p).
  - destruct data as [| | | | | |members];
      try (left; unfold add_post; by destruct (missing_fields _) as [[]|]).
    rewrite add_post_object.
    destruct (dict_get "title" members) as [t|]; [|by left].
    destruct (dict_get "content" members) as [c|]; [|by left].
    right. by eexists.
Qed.

(** Closes a goal whose hypothesis lists payload shapes that the payload at
    hand has not. *)
Ltac refute_shape :=
  intros [_ ?];
  repeat match goal with
         | H : _ ∨ _ |- _ => destruct H
         | H : ∃ _, _ |- _ => destruct H
         | H : _ ∧ _ |- _ => destruct H
         end;
  simplify_eq; congruence.

(** X2.  [add_post] lets an exception escape exactly for a payload that is
    truthy without being usable as a dict of fields: [True], a number other
    than zero (an [int] other than 0, a [float] that does not equal 0.0), a
    string in which both [title] and [content] occur, or an array that has
    both strings among its elements.  The exception is a [TypeError]. *)
Theorem add_post_raises_iff (POSTS : list post) (data : json) (e : exn) :
  (add_post POSTS data).1 = Raise e ↔
  e = TypeError ∧
  (data = JBool true ∨
   (∃ n, data = JNum n ∧ n ≠ 0) ∨
   (∃ x, data = JFloat x ∧ PrimFloat.eqb x 0%float = false) ∨
   (∃ s, data = JStr s ∧ (∃ pre suf, s = pre +:+ "title" +:+ suf)
                       ∧ (∃ pre suf, s = pre +:+ "content" +:+ suf)) ∨
   (∃ items, data = JArr items ∧ JStr "title" ∈ items ∧ JStr "content" ∈ items)).
Proof.
  destruct data as [|b|n|x|s|items|members].
  - split; [done | refute_shape].
  - destruct b; simpl.
    + split; [intros [= <-]; by eauto | by intros [-> _]].
    + split; [done | refute_shape].
  - unfold add_post, missing_fields. cbn [truthy].
    destruct (Z.eqb_spec n 0) as [->|Hn]; simpl.
    + split; [done | refute_shape].
    + split; [|by intros [-> _]]. intros [= <-]. split; [done|].
      right; left. by exists n.
  - unfold add_post, missing_fields. cbn [truthy].
    destruct (PrimFloat.eqb x 0%float) eqn:Hx; simpl.
    + split; [done | refute_shape].
    + split; [|by intros [-> _]]. intros [= <-]. split; [done|].
      do 2 right; left. by exists x.
  - unfold add_post, missing_fields, py_in. cbn [truthy].
    repeat setoid_rewrite <-str_contains_spec.
    destruct (String.eqb s EmptyString) eqn:Hs; cbn [negb mbind result_bind].
    + apply String.eqb_eq in Hs as ->. split; [done | refute_shape].
    + destruct (str_contains "title" s) eqn:Ht; cbn [negb];
        [destruct (str_contains "content" s) eqn:Hc; cbn [negb]|].
      * split; [intros [= <-] | by intros [-> _]]. split; [done|].
        do 3 right; left. by exists s.
      * split; [done | refute_shape].
      * split; [done | refute_shape].
  - unfold add_post, missing_fields, py_in. cbn [truthy].
    repeat setoid_rewrite <-existsb_is_str.
    destruct items as [|v items]; cbn [negb mbind result_bind].
    + split; [done | refute_shape].
    + destruct (existsb (is_str "title") (v :: items)) eqn:Ht; cbn [negb];
        [destruct (existsb (is_str "content") (v :: items)) eqn:Hc; cbn [negb]|].
      * split; [intros [= <-] | by intros [-> _]]. split; [done|]. do 4 right.
        by exists (v :: items).
      * split; [done | refute_shape].
      * split; [done | refute_shape].
  - rewrite add_post_object. split.
    + by destruct (dict_get "title" members), (dict_get "content" members).
    + refute_shape.
Qed.

(** ** Update: missing post, unusable payload, repetition *)

Section update_outcomes.
Implicit Types (POSTS : list post) (data : json) (post_id : Z).

(** The post found is found again, at the same place, after it was
    replaced by a post with the same id. *)
Lemma find_post_insert POSTS post_id i old new :
  find_post POSTS post_id = Some (i, old) → id new = post_id →
  find_post (<[i:=new]> POSTS) post_id = Some (i, new).
Proof.
  intros (Hi & Hid & Hmin)%find_post_Some Hnew. apply find_post_Some.
  split_and!; [|done|].
  - apply list_lookup_insert_eq. by apply (lookup_lt_Some _ _ old).
  - intros j q Hj Hlt. rewrite list_lookup_insert_ne in Hj by lia. by eapply Hmin.
Qed.

(** What [update_post] does with a JSON object when the post is there. *)
Lemma update_post_object POSTS post_id members i old :
  find_post POSTS post_id = Some (i, old) →
  let t := default (title old) (dict_get "title" members) in
  let c := default (content old) (dict_get "content" members) in
  update_post POSTS post_id (JObj members)
  = respond (JPost (Post post_id t c)) 200 (<[i:=Post post_id t c]> POSTS).
Proof.
  intros Hf. unfold update_post. rewrite Hf. simpl.
  apply find_post_Some in Hf as (_ & -> & _). done.
Qed.
End update_outcomes.

(** X3.  [update_post] looks for the post before it looks at the payload: for
    an id that no post has, the answer is the 404 error naming the id, for
    every payload; for an id that a post has and a payload that is not a JSON
    object (no body, an array, a string, a number), an [AttributeError]
    escapes.  The collection is left as it is in both cases. *)
Theorem update_post_missing_or_unusable (POSTS : list post) (post_id : Z) (data : json) :
  (post_id ∉ ids POSTS →
   update_post POSTS post_id data
   = respond (JError ("Post with id " +:+ str_of_int post_id +:+ " not found."))
       404 POSTS) ∧
  (post_id ∈ ids POSTS → (∀ members, data ≠ JObj members) →
   update_post POSTS post_id data = escape AttributeError POSTS).
Proof.
  split.
  - intros Hf%find_post_None. unfold update_post. by rewrite Hf.
  - intros (i & old & Hf)%find_post_elem_of Hdata. unfold update_post. rewrite Hf.
    destruct data as [| | | | | |members]; try done. by destruct (Hdata members).
Qed.

(** X4.  Sending the same update a second time changes nothing further: the
    second request gives the answer of the first and leaves the collection
    the first one left, whatever the id and the payload. *)
Theorem update_post_idempotent (POSTS : list post) (post_id : Z) (data : json) :
  update_post (update_post POSTS post_id data).2 post_id data
  = update_post POSTS post_id data.
Proof.
  destruct (find_post POSTS post_id) as [[i old]|] eqn:Hf.
  - destruct data as [| | | | | |members];
      try (unfold update_post; rewrite Hf; simpl; by rewrite Hf).
    rewrite (update_post_object _ _ members _ _ Hf). cbn [snd respond].
    set (t := default (title old) (dict_get "title" members)).
    set (c := default (content old) (dict_get "content" members)).
    rewrite (update_post_object _ _ members i (Post post_id t c))
      by (by apply (find_post_insert _ _ _ old)).
    cbn [title content]. rewrite list_insert_insert_eq.
    assert (default t (dict_get "title" members) = t) as ->
      by (unfold t; by destruct (dict_get "title" members)).
    assert (default c (dict_get "content" members) = c) as ->
      by (unfold c; by destruct (dict_get "content" members)).
    done.
  - unfold update_post. rewrite Hf. simpl. by rewrite Hf.
Qed.

(** X5.  An update whose payload object holds neither [title] nor [content]
    (the empty object, for one) leaves the collection exactly as it is, and
    answers with the post as stored when the post is there. *)
Theorem update_post_without_fields (POSTS : list post) (post_id : Z) members :
  dict_get "title" members = None →
  dict_get "content" members = None →
  (update_post POSTS post_id (JObj members)).2 = POSTS ∧
  ∀ i old, find_post POSTS post_id = Some (i, old) →
    (update_post POSTS post_id (JObj members)).1 = Ok (Response (JPost old) 200).
Proof.
  intros Ht Hc. destruct (find_post POSTS post_id) as [[i old]|] eqn:Hf.
  - rewrite (update_post_object _ _ members _ _ Hf), Ht, Hc. simpl.
    apply find_post_Some in Hf as (Hi & Hid & _).
    assert (Post post_id (title old) (content old) = old) as ->
      by (destruct old; simpl in *; by subst).
    split; [by apply list_insert_id|]. by intros ?? [= _ <-].
  - unfold update_post. rewrite Hf. by split.
Qed.

(** ** Create followed by another request *)

(** X6.  Deleting a post right after it was created, by the id the create
    answered with, gives back the collection as it was before the create.
    This holds for every collection (also one with repeated ids), since the
    new id is above every id present. *)
Theorem delete_after_create (POSTS POSTS' : list post) (data : json) (p : post) :
  add_post POSTS data = respond (JPost p) 201 POSTS' →
  delete_post POSTS' (id p)
  = respond (JMessage ("Post with id " +:+ str_of_int (id p)
                         +:+ " has been deleted successfully.")) 200 POSTS.
Proof.
  intros (-> & Hid & _)%add_post_created_inv.
  assert (find_post (POSTS ++ [p]) (id p) = Some (length POSTS, p)) as Hf.
  { apply find_post_Some. split_and!; [|done|].
    - by rewrite lookup_app_r, Nat.sub_diag.
    - intros j q Hj Hlt Hq. rewrite lookup_app_l in Hj by done.
      apply (new_id_fresh POSTS). rewrite <-Hid, <-Hq.
      unfold ids. apply list_elem_of_fmap. exists q.
      split; [done|]. by eapply list_elem_of_lookup_2. }
  unfold delete_post. rewrite Hf.
  by rewrite (delete_middle POSTS [] p), app_nil_r.
Qed.

(** X7.  Let [lower] map the empty string, and only it, to the empty string.
    A post created with a text title and content is found by a search with a
    non-empty title query whose lowered form occurs in the lowered title: in
    a collection of text posts the search answers 200 and the new post is the
    last of the posts returned. *)
Theorem search_after_create (POSTS POSTS' : list post) (data : json) (p : post)
    (t c q : string) (content_arg : option string) :
  lower_keeps_empty →
  text_posts POSTS →
  add_post POSTS data = respond (JPost p) 201 POSTS' →
  title p = JStr t → content p = JStr c →
  q ≠ EmptyString → ci_substring q t →
  ∃ matched,
    search_posts POSTS' (Some q) content_arg
    = respond (JPosts (matched ++ [p])) 200 POSTS'.
Proof.
  intros Hlower Htext (-> & _ & _)%add_post_created_inv Ht Hc Hq Hsub.
  exists (filter (matches q (default EmptyString content_arg)) POSTS).
  unfold search_posts. rewrite search_loop_text; [|done|].
  - simpl. rewrite filter_app, filter_cons_True; [done|].
    left. by rewrite Ht.
  - apply Forall_app. split; [done|]. apply Forall_singleton.
    split; by eexists.
Qed.

(** ** Search: when it raises *)

Section search_outcomes.
Implicit Types (posts matched_posts : list post) (p : post) (q : string) (v : json).

Lemma is_text_text_of v : is_text v → v = JStr (text_of v).
Proof. by intros [s ->]. Qed.

(** The test on one field either raises, on a non-empty query and a value
    that is not text, or gives the truth value of the match. *)
Lemma query_match_cases q v :
  lower_keeps_empty →
  (q ≠ EmptyString ∧ ¬ is_text v ∧ query_match (lower q) v = Raise AttributeError) ∨
  ((q = EmptyString ∨ is_text v) ∧
   query_match (lower q) v
   = Ok (bool_decide (q ≠ EmptyString ∧ ci_substring q (text_of v)))).
Proof.
  intros Hlower. destruct (decide (q = EmptyString)) as [->|Hq].
  - right. split; [by left|]. rewrite query_match_empty by done.
    by rewrite bool_decide_eq_false_2 by (by intros [? _]).
  - destruct v as [| | | |s| |];
      try (left; split_and!; [done|by intros [? [=]]|];
           unfold query_match; rewrite str_truthy_lower by done;
           by rewrite (proj2 (str_truthy_true q) Hq)).
    right. split; [right; by eexists|]. by apply query_match_text.
Qed.

Lemma search_loop_outcome title_query content_query posts matched_posts :
  lower_keeps_empty →
  (Exists (blocks_search title_query content_query) posts →
   search_loop (lower title_query) (lower content_query) posts matched_posts
   = Raise AttributeError) ∧
  (Forall (λ p, ¬ blocks_search title_query content_query p) posts →
   search_loop (lower title_query) (lower content_query) posts matched_posts
   = Ok (matched_posts ++ filter (matches title_query content_query) posts)).
Proof.
  intros Hlower.
  revert matched_posts. induction posts as [|p posts IH]; intros matched_posts.
  { split; [by intros ?%Exists_nil|]. intros _. simpl. by rewrite app_nil_r. }
  cbn [search_loop].
  destruct (query_match_cases title_query (title p) Hlower)
    as [(Hq & Hv & ->)|[Ht ->]]; cbn [mbind result_bind].
  { split; [done|]. intros [Hp _]%Forall_cons. destruct Hp. by left. }
  destruct (query_match_cases content_query (content p) Hlower)
    as [(Hq & Hv & ->)|[Hc ->]]; cbn [mbind result_bind].
  { split; [done|]. intros [Hp _]%Forall_cons. destruct Hp. by right. }
  assert (¬ blocks_search title_query content_query p) as Hp
    by (intros [[??]|[??]]; tauto).
  set (b := bool_decide _ || bool_decide _).
  assert (filter (matches title_query content_query) (p :: posts)
          = (if b then [p] else []) ++ filter (matches title_query content_query) posts)
    as Hfilter.
  { rewrite filter_cons. unfold b.
    destruct (decide (matches title_query content_query p)) as [Hm|Hm].
    - destruct Hm as [Hm|Hm]; rewrite (bool_decide_eq_true_2 _ Hm);
        by rewrite ?orb_true_r.
    - unfold matches in Hm. by rewrite !bool_decide_eq_false_2 by tauto. }
  destruct (IH (if b then matched_posts ++ [p] else matched_posts)) as [IHr IHo].
  split.
  - intros [?|Hposts]%Exists_cons; [done|]. by apply IHr.
  - intros [_ Hposts]%Forall_cons. rewrite IHo, Hfilter by done.
    destruct b; simpl; by rewrite <-?app_assoc.
Qed.
End search_outcomes.

(** X8.  Let [lower] map the empty string, and only it, to the empty string.
    [search_posts] raises on the collections that hold a post with a non-text
    value in a field whose query is non-empty: it then lets an
    [AttributeError] escape; on every other collection it answers 200 with
    the matching posts in collection order.  A field whose query is empty is
    never looked at, so values that are not text in it do no harm.  The
    collection is left as it is either way. *)
Theorem search_posts_outcome (POSTS : list post) title_arg content_arg :
  lower_keeps_empty →
  let title_query := default EmptyString title_arg in
  let content_query := default EmptyString content_arg in
  (Exists (blocks_search title_query content_query) POSTS →
   search_posts POSTS title_arg content_arg = escape AttributeError POSTS) ∧
  (Forall (λ p, ¬ blocks_search title_query content_query p) POSTS →
   search_posts POSTS title_arg content_arg
   = respond (JPosts (filter (matches title_query content_query) POSTS)) 200 POSTS).
Proof.
  intros Hlower title_query content_query. unfold search_posts.
  fold title_query content_query.
  destruct (search_loop_outcome title_query content_query POSTS [] Hlower)
    as [Hr Ho].
  split; intros H; [by rewrite Hr | by rewrite Ho].
Qed.

(** ** List: errors, exceptions, and the two directions *)

Section listing_outcomes.
Implicit Types (POSTS : list post) (p : post) (field : string).

(** The listing for a valid sort field and no invalid direction is what
    [list.sort] makes of the collection. *)
Lemma get_posts_valid POSTS field direction :
  field ∈ valid_fields →
  given_and_not_in direction valid_directions = false →
  get_posts POSTS (Some field) direction
  = match list_sort (λ p, v ← post_getitem p field; py_lower v)
            (bool_decide (direction = Some "desc")) POSTS with
    | Ok sorted_posts => respond (JPosts sorted_posts) 200 POSTS
    | Raise e => escape e POSTS
    end.
Proof.
  intros [Hsort Htruthy]%valid_field_given Hdir.
  unfold get_posts. by rewrite Hsort, Hdir, Htruthy.
Qed.

(** The sort key of one post is its lowered field, or the attempt raises. *)
Lemma sort_key_cases field p :
  field ∈ valid_fields →
  (¬ non_text_field field p ∧
   (v ← post_getitem p field; py_lower v) = Ok (sort_key field p)) ∨
  (non_text_field field p ∧
   (v ← post_getitem p field; py_lower v) = Raise AttributeError).
Proof.
  intros Hfield. unfold non_text_field, sort_key, field_text.
  assert (∃ v, post_getitem p field = Ok v) as [v Hv].
  { apply elem_of_cons in Hfield as [->|Hfield];
      [|apply list_elem_of_singleton in Hfield as ->]; by eexists. }
  rewrite Hv. cbn [mbind result_bind].
  destruct v as [| | | |s| |];
    try (right; split; [eexists; split; [done|by intros [? [=]]] | done]).
  left. split; [|done]. intros (v & [= <-] & Hv'). apply Hv'. by eexists.
Qed.

Lemma map_result_sort_keys field POSTS :
  field ∈ valid_fields →
  (Exists (non_text_field field) POSTS ∧
   map_result (λ p, v ← post_getitem p field; py_lower v) POSTS
   = Raise AttributeError) ∨
  (Forall (λ p, ¬ non_text_field field p) POSTS ∧
   Forall (λ p, (v ← post_getitem p field; py_lower v) = Ok (sort_key field p)) POSTS).
Proof.
  intros Hfield. induction POSTS as [|p POSTS IH]; [right; by split|].
  cbn [map_result].
  destruct (sort_key_cases field p Hfield) as [[Hp Hk]|[Hp Hk]]; rewrite Hk.
  - destruct IH as [[Hex Hr]|[Hall Hkeys]].
    + left. split; [by apply Exists_cons_tl|]. cbn [mbind result_bind]. by rewrite Hr.
    + right. split; by constructor.
  - left. split; [by apply Exists_cons_hd | done].
Qed.

(** Posts with different keys in a list are different posts. *)
Lemma NoDup_fmap_elem_of {A B} (f : A → B) (l : list A) x y :
  NoDup (f <$> l) → x ∈ l → y ∈ l → f x = f y → x = y.
Proof.
  induction l as [|a l IH]; csimpl; [by intros _ ?%elem_of_nil|].
  intros [Ha Hl]%NoDup_cons [->|Hx]%elem_of_cons [->|Hy]%elem_of_cons Hxy;
    [done| | |by apply IH].
  - destruct Ha. rewrite Hxy. by apply list_elem_of_fmap_2.
  - destruct Ha. rewrite <-Hxy. by apply list_elem_of_fmap_2.
Qed.
End listing_outcomes.

(** X9.  For a valid sort field and a direction that is absent, [asc] or
    [desc], [get_posts] lets an [AttributeError] escape exactly when some post
    holds a value that is not text in the chosen field; otherwise it answers
    200 with a permutation of the collection, whatever the other field
    holds.  The collection is left as it is either way. *)
Theorem get_posts_sort_outcome (POSTS : list post) field direction :
  field ∈ valid_fields →
  direction ∈ [None; Some "asc"; Some "desc"] →
  (Exists (non_text_field field) POSTS
   ↔ get_posts POSTS (Some field) direction = escape AttributeError POSTS) ∧
  (Forall (λ p, ¬ non_text_field field p) POSTS
   ↔ ∃ sorted_posts,
       get_posts POSTS (Some field) direction = respond (JPosts sorted_posts) 200 POSTS
       ∧ sorted_posts ≡ₚ POSTS).
Proof.
  intros Hfield Hdir%valid_direction_given.
  rewrite (get_posts_valid _ _ _ Hfield Hdir).
  destruct (map_result_sort_keys field POSTS Hfield) as [[Hex Hr]|[Hall Hkeys]].
  - unfold list_sort. rewrite Hr. cbn [mbind result_bind].
    split; [done|]. split; [|by intros (? & [=] & _)].
    intros Hall. apply Exists_exists in Hex as (p & Hp & Hbad).
    destruct (proj1 (Forall_forall _ _) Hall p Hp Hbad).
  - destruct (list_sort_spec _ (sort_key field)
                (bool_decide (direction = Some "desc")) POSTS Hkeys)
      as (sorted_posts & -> & Hperm & _).
    split; [|split; [by eauto|done]].
    split; [|done]. intros (p & Hp & Hbad)%Exists_exists.
    destruct (proj1 (Forall_forall _ _) Hall p Hp Hbad).
Qed.

(** X10.  The sort parameter is checked first: a sort value that is given,
    non-empty and not a valid field is answered with the error about the sort
    field, whatever the direction is; the error about the direction is the
    answer when the sort value passes (absent, empty or valid) and the
    direction is given, non-empty and not a valid direction, also when no
    sort is asked for. *)
Theorem get_posts_error_precedence (POSTS : list post) sort_field direction :
  ((∃ s, sort_field = Some s ∧ s ≠ EmptyString ∧ s ∉ valid_fields) →
   get_posts POSTS sort_field direction
   = respond (JError invalid_sort_msg) 400 POSTS) ∧
  (sort_field = None ∨ sort_field = Some EmptyString
   ∨ (∃ s, sort_field = Some s ∧ s ∈ valid_fields) →
   (∃ d, direction = Some d ∧ d ≠ EmptyString ∧ d ∉ valid_directions) →
   get_posts POSTS sort_field direction
   = respond (JError invalid_direction_msg) 400 POSTS).
Proof.
  split.
  - intros (s & -> & Hs%str_truthy_true & Hin). unfold get_posts. simpl.
    by rewrite Hs, (bool_decide_eq_false_2 _ Hin).
  - intros Hsort (d & -> & Hd%str_truthy_true & Hin).
    assert (given_and_not_in sort_field valid_fields = false) as Hok.
    { destruct Hsort as [->|[->|(s & -> & Hs)]]; [done..|].
      by apply valid_field_given. }
    unfold get_posts. rewrite Hok. simpl.
    by rewrite Hd, (bool_decide_eq_false_2 _ Hin).
Qed.

(** X11.  When no two posts have the same sort key, the descending listing
    is the ascending listing read backwards.  (With equal keys it is not:
    both listings keep tied posts in collection order.) *)
Theorem get_posts_desc_reverses_asc (POSTS : list post) field :
  field ∈ valid_fields →
  text_posts POSTS →
  NoDup (sort_key field <$> POSTS) →
  ∃ ascending,
    get_posts POSTS (Some field) (Some "asc") = respond (JPosts ascending) 200 POSTS ∧
    get_posts POSTS (Some field) (Some "desc")
    = respond (JPosts (reverse ascending)) 200 POSTS.
Proof.
  intros Hfield Htext Hkeys.
  assert (Forall (λ p, (v ← post_getitem p field; py_lower v)
                       = Ok (sort_key field p)) POSTS) as Hk.
  { eapply Forall_impl; [exact Htext|]. intros p. by apply sort_key_text. }
  rewrite !get_posts_valid by done.
  destruct (list_sort_spec _ (sort_key field) false POSTS Hk)
    as (ascending & Hasc & Hperm_a & Hsort_a & _).
  destruct (list_sort_spec _ (sort_key field) true POSTS Hk)
    as (descending & Hdesc & Hperm_d & Hsort_d & _).
  rewrite (bool_decide_eq_false_2 (Some "asc" = Some "desc")) by done.
  rewrite (bool_decide_eq_true_2 (Some "desc" = Some "desc")) by done.
  rewrite Hasc, Hdesc. exists ascending. split; [done|]. do 2 f_equal.
  apply (Sorted_unique_strong (ci_ge field)).
  - intros p q Hp Hq Hpq Hqp. rewrite Hperm_d in Hp.
    rewrite reverse_Permutation, Hperm_a in Hq.
    apply (NoDup_fmap_elem_of (sort_key field) POSTS); [done..|].
    by apply (anti_symm String.le).
  - exact Hsort_d.
  - apply (Sorted_reverse (ci_le field)). exact Hsort_a.
  - by rewrite reverse_Permutation, Hperm_a, Hperm_d.
Qed.

(** ** The store over sequences of requests *)

Section store_outcomes.
Implicit Types (POSTS : list post) (r : request) (rs : list request).

Lemma StronglySorted_delete {A} (R : relation A) (l : list A) i :
  StronglySorted R l → StronglySorted R (delete i l).
Proof.
  intros Hl. revert i. induction Hl as [|x l Hl IH Hx]; intros [|i]; simpl;
    [constructor..|done|].
  constructor; [apply IH | by apply Forall_delete].
Qed.

(** The ids stay increasing and positive through every request. *)
Lemma handle_ids_increasing POSTS r :
  StronglySorted Z.lt (ids POSTS) ∧ Forall (λ i, 1 ≤ i) (ids POSTS) →
  StronglySorted Z.lt (ids (handle POSTS r).2)
  ∧ Forall (λ i, 1 ≤ i) (ids (handle POSTS r).2).
Proof.
  intros [Hs Hpos].
  destruct (handle_ids POSTS r) as [->|[[i ->]|(data & _ & ->)]]; [done| |].
  - split; [by apply StronglySorted_delete | by apply Forall_delete].
  - split.
    + apply StronglySorted_app. split_and!; [|done|repeat constructor].
      intros i j Hi ->%list_elem_of_singleton. by apply new_id_gt.
    + apply Forall_app. split; [done|]. apply Forall_singleton.
      destruct POSTS as [|p POSTS]; [done|].
      assert (id p ∈ ids (p :: POSTS)) as Hp by (by left).
      apply new_id_gt in Hp. apply Forall_cons in Hpos as [Hp1 _]. lia.
Qed.

Lemma run_ids_increasing POSTS rs :
  StronglySorted Z.lt (ids POSTS) ∧ Forall (λ i, 1 ≤ i) (ids POSTS) →
  StronglySorted Z.lt (ids (run POSTS rs))
  ∧ Forall (λ i, 1 ≤ i) (ids (run POSTS rs)).
Proof.
  revert POSTS. induction rs as [|r rs IH]; intros POSTS H; [done|].
  apply IH, handle_ids_increasing, H.
Qed.
End store_outcomes.

(** X12.  In every state the store can be in, the ids grow strictly along the
    collection and are at least 1; the last post therefore has the largest
    id, and the next create assigns the id of the last post plus one. *)
Theorem reachable_ids_increasing (POSTS : list post) :
  reachable POSTS →
  StronglySorted Z.lt (ids POSTS) ∧
  Forall (λ i, 1 ≤ i) (ids POSTS) ∧
  ∀ p, last POSTS = Some p → new_id POSTS = id p + 1.
Proof.
  intros [rs <-].
  destruct (run_ids_increasing POSTS_seed rs) as [Hs Hpos].
  { split; unfold ids, POSTS_seed; simpl; repeat constructor; lia. }
  split_and!; [done..|]. intros p [l Hl]%last_Some.
  destruct (new_id_max (run POSTS_seed rs)) as (m & Hm & Hmax & ->).
  { rewrite Hl. by destruct l. }
  f_equal. rewrite Hl in Hs, Hm, Hmax. unfold ids in Hs, Hm, Hmax.
  rewrite fmap_app in Hs, Hm, Hmax. simpl in Hs, Hm, Hmax.
  apply StronglySorted_app in Hs as (Hlt & _ & _).
  assert (id p ≤ m) by (apply Hmax, elem_of_app; right; by left).
  apply elem_of_app in Hm as [Hm| ->%list_elem_of_singleton]; [|done].
  specialize (Hlt m (id p) Hm). assert (m < id p) by (apply Hlt; by left). lia.
Qed.

(** X13.  In every state the store can be in, a second delete of the same id
    right after the first is answered with the 404 error naming the id and
    changes nothing: the first delete has taken out the only post with
    that id, if there was one. *)
Theorem delete_post_twice (POSTS : list post) (post_id : Z) :
  reachable POSTS →
  let POSTS1 := (delete_post POSTS post_id).2 in
  delete_post POSTS1 post_id
  = respond (JError ("Post with id " +:+ str_of_int post_id +:+ " not found."))
      404 POSTS1.
Proof.
  intros Hnd%reachable_NoDup POSTS1. apply delete_post_not_found. subst POSTS1.
  destruct (decide (post_id ∈ ids POSTS)) as [Hin|Hout].
  - apply delete_post_found in Hin
      as (before & p & after & -> & Hid & Hbefore & ->). cbn [snd respond].
    unfold ids in *. rewrite fmap_app, fmap_cons, Hid in Hnd.
    apply NoDup_app in Hnd as (_ & _ & [Hafter _]%NoDup_cons).
    rewrite fmap_app. by intros [?|?]%elem_of_app.
  - by rewrite delete_post_not_found.
Qed.

(** X14.  A request that is answered with an error status, or that lets an
    exception escape, leaves the collection exactly as it was: the collection
    changes only under an answer with status 200 or 201, and never under a
    list or a search request. *)
Theorem handle_error_leaves_collection (POSTS : list post) (r : request) :
  match (handle POSTS r).1 with
  | Ok (Response _ st) => st = 200 ∨ st = 201 ∨ (handle POSTS r).2 = POSTS
  | Raise _ => (handle POSTS r).2 = POSTS
  end ∧
  match r with
  | GetPosts _ _ | SearchPosts _ _ => (handle POSTS r).2 = POSTS
  | _ => True
  end.
Proof.
  destruct r as [sort_field direction|data|post_id|post_id data|t c]; simpl.
  - split; [|apply get_posts_state].
    pose proof (get_posts_state POSTS sort_field direction) as Hst.
    destruct (get_posts POSTS sort_field direction) as [[[b st]|e] POSTS'];
      simpl in *; auto.
  - split; [|done]. unfold add_post.
    destruct (missing_fields data) as [[]|]; simpl; auto.
    destruct (t ← py_getitem data "title"; c ← py_getitem data "content"; Ok (t, c))
      as [[t c]|]; simpl; auto.
  - split; [|done]. unfold delete_post.
    destruct (find_post POSTS post_id) as [[i p]|]; simpl; auto.
  - split; [|done]. unfold update_post.
    destruct (find_post POSTS post_id) as [[i old]|]; simpl; auto.
    destruct (t ← py_get data "title" (title old);
              c ← py_get data "content" (content old); Ok (t, c))
      as [[t c]|]; simpl; auto.
  - split; [|apply search_posts_state].
    pose proof (search_posts_state POSTS t c) as Hst.
    destruct (search_posts POSTS t c) as [[[b st]|e] POSTS']; simpl in *; auto.
Qed.

(** X15.  As long as every create and update so far carried text in the
    [title] and [content] it gave, no list and no search request raises:
    each is answered, with a listing or with the 400 error of an invalid
    parameter. *)
Theorem reads_answered_after_text_requests (rs : list request)
    (a b : option string) :
  Forall text_request rs →
  let POSTS := run POSTS_seed rs in
  (∃ body st, get_posts POSTS a b = respond body st POSTS ∧ (st = 200 ∨ st = 400)) ∧
  (∃ matched, search_posts POSTS a b = respond (JPosts matched) 200 POSTS).
Proof.
  intros Htext%reachable_text_posts POSTS. fold POSTS in Htext. split.
  - unfold get_posts.
    destruct (given_and_not_in a valid_fields) eqn:Ha; [by eauto|].
    destruct (given_and_not_in b valid_directions) eqn:Hb; [by eauto|].
    destruct a as [field|]; [|by eauto].
    destruct (str_truthy field) eqn:Hfield; [|by eauto].
    simpl in Ha. rewrite Hfield in Ha. simpl in Ha.
    apply negb_false_iff, bool_decide_eq_true in Ha.
    destruct (list_sort_spec (λ p, v ← post_getitem p field; py_lower v)
                (sort_key field) (bool_decide (b = Some "desc")) POSTS)
      as (sorted_posts & -> & _); [|by eauto].
    eapply Forall_impl; [exact Htext|]. intros p. by apply sort_key_text.
  - unfold search_posts.
    destruct (search_loop_answers (lower (default EmptyString a))
                (lower (default EmptyString b)) POSTS [] Htext) as [matched ->].
    by eauto.
Qed.

End model.

(** * Concrete runs

    The theorems above at concrete inputs, with the ASCII case mapping for
    [lower]. *)

Lemma ascii_lower_keeps_empty : lower_keeps_empty ascii_lower.
Proof. intros [|c s]; simpl; split; congruence. Qed.

Lemma add_post_assigns_next_id_witness :
  ∃ new_post,
    add_post POSTS_seed (JObj [("title", JStr "A"); ("content", JStr "B")])
      = respond (JPost new_post) 201 (POSTS_seed ++ [new_post]) ∧
    title new_post = JStr "A" ∧ content new_post = JStr "B" ∧
    (POSTS_seed = [] → id new_post = 1) ∧
    (POSTS_seed ≠ [] →
     ∃ m, m ∈ ids POSTS_seed ∧ (∀ i, i ∈ ids POSTS_seed → i ≤ m)
          ∧ id new_post = m + 1).
Proof.
  apply (add_post_assigns_next_id POSTS_seed
           [("title", JStr "A"); ("content", JStr "B")]); reflexivity.
Defined.

Lemma add_post_checks_presence_only_witness :
  add_post POSTS_seed
    (JObj [("title", JStr EmptyString); ("content", JStr EmptyString)])
  = respond (JPost (Post 3 (JStr EmptyString) (JStr EmptyString))) 201
      (POSTS_seed ++ [Post 3 (JStr EmptyString) (JStr EmptyString)])
  ∧ (add_post POSTS_seed (JObj [("title", JStr "A")])
     = respond (JError "Missing title or content") 400 POSTS_seed
     ↔ JObj [("title", JStr "A")] = JNull ∨ JObj [("title", JStr "A")] = JObj [] ∨
       ∃ members, JObj [("title", JStr "A")] = JObj members ∧
         (dict_get "title" members = None ∨ dict_get "content" members = None)).
Proof.
  split.
  - apply (proj1 add_post_checks_presence_only POSTS_seed
             [("title", JStr EmptyString); ("content", JStr EmptyString)]);
      reflexivity.
  - apply (proj2 add_post_checks_presence_only POSTS_seed
             (JObj [("title", JStr "A")])).
    right. by exists [("title", JStr "A")].
Defined.

Lemma delete_post_removes_exactly_one_witness :
  (∃ before p after,
     POSTS_seed = before ++ p :: after ∧ id p = 1 ∧ (1 ∉ ids before) ∧
     delete_post POSTS_seed 1
       = respond (JMessage ("Post with id " +:+ str_of_int 1
                              +:+ " has been deleted successfully."))
           200 (before ++ after) ∧
     S (length (before ++ after)) = length POSTS_seed) ∧
  delete_post POSTS_seed 99
    = respond (JError ("Post with id " +:+ str_of_int 99 +:+ " not found."))
        404 POSTS_seed.
Proof.
  split.
  - apply (proj1 (delete_post_removes_exactly_one POSTS_seed 1)).
    unfold ids, POSTS_seed. simpl. by left.
  - apply (proj2 (delete_post_removes_exactly_one POSTS_seed 99)).
    unfold ids, POSTS_seed. simpl.
    intros [[=]|[[=]|[]%elem_of_nil]%elem_of_cons]%elem_of_cons.
Defined.

Lemma update_post_overwrites_given_fields_witness :
  ∃ (i : nat) (old new : post) (POSTS' : list post),
    update_post POSTS_seed 2 (JObj [("title", JStr "T")])
      = respond (JPost new) 200 POSTS' ∧
    POSTS_seed !! i = Some old ∧ id old = 2 ∧
    (∀ j q, POSTS_seed !! j = Some q → (j < i)%nat → id q ≠ 2) ∧
    POSTS' !! i = Some new ∧
    id new = id old ∧
    (∀ t, dict_get "title" [("title", JStr "T")] = Some t → title new = t) ∧
    (dict_get "title" [("title", JStr "T")] = None → title new = title old) ∧
    (∀ c, dict_get "content" [("title", JStr "T")] = Some c → content new = c) ∧
    (dict_get "content" [("title", JStr "T")] = None → content new = content old) ∧
    length POSTS' = length POSTS_seed ∧
    (∀ j, j ≠ i → POSTS' !! j = POSTS_seed !! j).
Proof.
  apply (update_post_overwrites_given_fields POSTS_seed 2 [("title", JStr "T")]).
  unfold ids, POSTS_seed. simpl. right. by left.
Defined.

Lemma get_posts_without_sort_witness :
  get_posts ascii_lower POSTS_seed None (Some "desc") = respond (JPosts POSTS_seed) 200 POSTS_seed.
Proof.
  apply (get_posts_without_sort ascii_lower POSTS_seed (Some "desc")).
  right; right; left.
Defined.

Lemma get_posts_rejects_invalid_parameter_witness :
  ∃ msg, get_posts ascii_lower POSTS_seed (Some "id") (Some "desc")
         = respond (JError msg) 400 POSTS_seed.
Proof.
  apply (proj1 (proj1 (get_posts_rejects_invalid_parameter ascii_lower)
                  POSTS_seed (Some "id") (Some "desc"))).
  left. exists "id". split_and!; [done..|].
  intros [[=]|[[=]|[]%elem_of_nil]%elem_of_cons]%elem_of_cons.
Defined.



Lemma reachable_ids_distinct_witness :
  NoDup (ids (run ascii_lower POSTS_seed
                [AddPost (JObj [("title", JStr "A"); ("content", JStr "B")]);
                 DeletePost 1;
                 UpdatePost 3 (JObj [("title", JStr "C")]);
                 AddPost (JObj [("title", JNum 7); ("content", JNull)])])).
Proof.
  apply (proj1 (reachable_ids_distinct ascii_lower)). by eexists.
Defined.

Lemma deleted_id_absent_until_reassigned_witness :
  let rs := [AddPost (JObj [("title", JStr "A"); ("content", JStr "B")]);
             DeletePost 2; AddPost (JObj [("title", JStr "C"); ("content", JStr "D")])] in
  let POSTS1 := (delete_post POSTS_seed 1).2 in
  delete_post POSTS_seed 1
    = respond (JMessage ("Post with id " +:+ str_of_int 1
                           +:+ " has been deleted successfully.")) 200 POSTS1 ∧
  (1 ∉ ids POSTS1) ∧
  absent_throughout ascii_lower 1 POSTS1 rs.
Proof.
  intros rs POSTS1.
  destruct (deleted_id_absent_until_reassigned ascii_lower POSTS_seed 1 rs)
    as (Hdel & Habsent & Hiff).
  - by exists [].
  - unfold ids, POSTS_seed. simpl. by left.
  - split_and!; [exact Hdel | exact Habsent |]. apply Hiff.
    simpl. split_and!; try done; unfold ids; simpl.
    + intros [_ [[[=] _]|(m & ->%list_elem_of_singleton & _ & [=])]].
    + intros [_ [[[=] _]|(m & ->%list_elem_of_singleton & _ & [=])]].
Defined.

Lemma add_post_creates_iff_witness :
  ∃ p, add_post POSTS_seed (JObj [("content", JNull); ("title", JNum 7)])
       = respond (JPost p) 201 (POSTS_seed ++ [p]).
Proof.
  apply (proj1 (proj1 (add_post_creates_iff POSTS_seed
                         (JObj [("content", JNull); ("title", JNum 7)])))).
  by exists [("content", JNull); ("title", JNum 7)], (JNum 7), JNull.
Defined.

Lemma add_post_raises_iff_witness :
  (add_post POSTS_seed (JFloat 1.5%float)).1 = Raise TypeError ∧
  (add_post POSTS_seed (JArr [JStr "content"; JNum 1; JStr "title"])).1
  = Raise TypeError.
Proof.
  split.
  - apply (proj2 (add_post_raises_iff POSTS_seed (JFloat 1.5%float) TypeError)).
    split; [done|]. do 2 right; left. by exists 1.5%float.
  - apply (proj2 (add_post_raises_iff POSTS_seed
                    (JArr [JStr "content"; JNum 1; JStr "title"]) TypeError)).
    split; [done|]. do 4 right. exists [JStr "content"; JNum 1; JStr "title"].
    split_and!; [done| |]; [do 2 right; by left | by left].
Defined.

Lemma update_post_missing_or_unusable_witness :
  update_post POSTS_seed 7 JNull
  = respond (JError ("Post with id " +:+ str_of_int 7 +:+ " not found.")) 404 POSTS_seed
  ∧ update_post POSTS_seed 2 JNull = escape AttributeError POSTS_seed.
Proof.
  split.
  - apply (proj1 (update_post_missing_or_unusable POSTS_seed 7 JNull)).
    unfold ids, POSTS_seed. simpl.
    intros [[=]|[[=]|[]%elem_of_nil]%elem_of_cons]%elem_of_cons.
  - apply (proj2 (update_post_missing_or_unusable POSTS_seed 2 JNull)); [|done].
    unfold ids, POSTS_seed. simpl. right. by left.
Defined.

Lemma update_post_without_fields_witness :
  (update_post POSTS_seed 1 (JObj [("author", JStr "me")])).2 = POSTS_seed ∧
  ∀ i old, find_post POSTS_seed 1 = Some (i, old) →
    (update_post POSTS_seed 1 (JObj [("author", JStr "me")])).1
    = Ok (Response (JPost old) 200).
Proof.
  by apply (update_post_without_fields POSTS_seed 1 [("author", JStr "me")]).
Defined.

Lemma delete_after_create_witness :
  delete_post (POSTS_seed ++ [Post 3 (JStr "A") (JStr "B")]) 3
  = respond (JMessage ("Post with id " +:+ str_of_int 3
                         +:+ " has been deleted successfully.")) 200 POSTS_seed.
Proof.
  apply (delete_after_create POSTS_seed _
           (JObj [("title", JStr "A"); ("content", JStr "B")])
           (Post 3 (JStr "A") (JStr "B"))).
  reflexivity.
Defined.

Lemma search_after_create_witness :
  ∃ matched,
    search_posts ascii_lower (POSTS_seed ++ [Post 3 (JStr "Third Post") (JStr "B")])
      (Some "RD po") None
    = respond (JPosts (matched ++ [Post 3 (JStr "Third Post") (JStr "B")])) 200
        (POSTS_seed ++ [Post 3 (JStr "Third Post") (JStr "B")]).
Proof.
  apply (search_after_create ascii_lower POSTS_seed _
           (JObj [("title", JStr "Third Post"); ("content", JStr "B")])
           (Post 3 (JStr "Third Post") (JStr "B")) "Third Post" "B").
  - exact ascii_lower_keeps_empty.
  - repeat constructor; by eexists.
  - reflexivity.
  - reflexivity.
  - reflexivity.
  - discriminate.
  - by exists "thi", "st".
Defined.

Lemma search_posts_outcome_witness :
  let POSTS := POSTS_seed ++ [Post 3 (JNum 5) (JStr "Five")] in
  search_posts ascii_lower POSTS (Some "post") None = escape AttributeError POSTS ∧
  search_posts ascii_lower POSTS None (Some "FI")
  = respond (JPosts (filter (matches ascii_lower EmptyString "FI") POSTS)) 200 POSTS.
Proof.
  intros POSTS. split.
  - apply (proj1 (search_posts_outcome ascii_lower POSTS (Some "post") None
                    ascii_lower_keeps_empty)).
    do 2 apply Exists_cons_tl. apply Exists_cons_hd. left.
    split; [done|]. by intros [? [=]].
  - apply (proj2 (search_posts_outcome ascii_lower POSTS None (Some "FI")
                    ascii_lower_keeps_empty)).
    repeat constructor; intros [[? _]|[_ Hc]]; try done; apply Hc; by eexists.
Defined.

Lemma get_posts_sort_outcome_witness :
  let POSTS := POSTS_seed ++ [Post 3 (JNum 5) (JStr "Five")] in
  get_posts ascii_lower POSTS (Some "title") None = escape AttributeError POSTS ∧
  ∃ sorted_posts,
    get_posts ascii_lower POSTS (Some "content") (Some "desc")
    = respond (JPosts sorted_posts) 200 POSTS ∧ sorted_posts ≡ₚ POSTS.
Proof.
  intros POSTS. split.
  - apply (proj1 (proj1 (get_posts_sort_outcome ascii_lower POSTS "title" None
                           ltac:(by left) ltac:(by left)))).
    do 2 apply Exists_cons_tl. apply Exists_cons_hd.
    exists (JNum 5). split; [done|]. by intros [? [=]].
  - apply (proj1 (proj2 (get_posts_sort_outcome ascii_lower POSTS "content" (Some "desc")
                           ltac:(right; by left) ltac:(do 2 right; by left)))).
    repeat constructor; intros (v & [= <-] & Hv); apply Hv; by eexists.
Defined.

Lemma get_posts_error_precedence_witness :
  get_posts ascii_lower POSTS_seed (Some "id") (Some "up")
  = respond (JError invalid_sort_msg) 400 POSTS_seed ∧
  get_posts ascii_lower POSTS_seed None (Some "up")
  = respond (JError invalid_direction_msg) 400 POSTS_seed.
Proof.
  split.
  - apply (proj1 (get_posts_error_precedence ascii_lower POSTS_seed (Some "id") (Some "up"))).
    exists "id". split_and!; [done..|].
    intros [[=]|[[=]|[]%elem_of_nil]%elem_of_cons]%elem_of_cons.
  - apply (proj2 (get_posts_error_precedence ascii_lower POSTS_seed None (Some "up")));
      [by left|].
    exists "up". split_and!; [done..|].
    intros [[=]|[[=]|[]%elem_of_nil]%elem_of_cons]%elem_of_cons.
Defined.

Lemma get_posts_desc_reverses_asc_witness :
  ∃ ascending,
    get_posts ascii_lower POSTS_seed (Some "title") (Some "asc")
    = respond (JPosts ascending) 200 POSTS_seed ∧
    get_posts ascii_lower POSTS_seed (Some "title") (Some "desc")
    = respond (JPosts (reverse ascending)) 200 POSTS_seed.
Proof.
  apply (get_posts_desc_reverses_asc ascii_lower POSTS_seed "title").
  - by left.
  - repeat constructor; by eexists.
  - unfold POSTS_seed. csimpl. apply NoDup_cons. split; [|apply NoDup_singleton].
    by intros [=]%list_elem_of_singleton.
Defined.

Lemma reachable_ids_increasing_witness :
  let POSTS := run ascii_lower POSTS_seed
                 [AddPost (JObj [("title", JStr "A"); ("content", JStr "B")]);
                  DeletePost 2;
                  AddPost (JObj [("title", JStr "C"); ("content", JStr "D")])] in
  StronglySorted Z.lt (ids POSTS) ∧
  Forall (λ i, 1 ≤ i) (ids POSTS) ∧
  ∀ p, last POSTS = Some p → new_id POSTS = id p + 1.
Proof.
  intros POSTS. apply (reachable_ids_increasing ascii_lower POSTS). by eexists.
Defined.

Lemma delete_post_twice_witness :
  let POSTS1 := (delete_post POSTS_seed 1).2 in
  delete_post POSTS1 1
  = respond (JError ("Post with id " +:+ str_of_int 1 +:+ " not found.")) 404 POSTS1.
Proof.
  apply (delete_post_twice ascii_lower POSTS_seed 1). by exists [].
Defined.

Lemma reads_answered_after_text_requests_witness :
  let POSTS := run ascii_lower POSTS_seed
                 [AddPost (JObj [("title", JStr "A"); ("content", JStr "B")]);
                  UpdatePost 1 (JObj [("content", JStr "C")]); AddPost JNull] in
  (∃ body st, get_posts ascii_lower POSTS (Some "title") (Some "desc") = respond body st POSTS
              ∧ (st = 200 ∨ st = 400)) ∧
  (∃ matched, search_posts ascii_lower POSTS (Some "title") (Some "desc")
              = respond (JPosts matched) 200 POSTS).
Proof.
  apply (reads_answered_after_text_requests ascii_lower
           [AddPost (JObj [("title", JStr "A"); ("content", JStr "B")]);
            UpdatePost 1 (JObj [("content", JStr "C")]); AddPost JNull]).
  repeat constructor; intros members k v [= <-] Hk Hv;
    repeat (apply elem_of_cons in Hk as [->|Hk]);
    try (by apply elem_of_nil in Hk); simpl in Hv; simplify_eq; by eexists.
Defined.

(** C7, as the claim states it, fails for the empty string: [sort=] is present
    and is neither [title] nor [content], and the listing is served. *)
Lemma get_posts_empty_sort_accepted :
  (EmptyString ∉ valid_fields) ∧
  get_posts ascii_lower POSTS_seed (Some EmptyString) None
  = respond (JPosts POSTS_seed) 200 POSTS_seed.
Proof.
  split; [|reflexivity].
  intros [[=]|[[=]|[]%elem_of_nil]%elem_of_cons]%elem_of_cons.
Qed.

(** C1, as the claim states it, fails: from the seed, deleting post 2 and
    then creating a post gives id 2 to the new post. *)
Lemma deleted_id_assigned_again :
  let POSTS1 := (delete_post POSTS_seed 2).2 in
  let new_post := Post 2 (JStr "A") (JStr "B") in
  2 ∈ ids POSTS_seed ∧
  delete_post POSTS_seed 2
    = respond (JMessage "Post with id 2 has been deleted successfully.") 200 POSTS1 ∧
  (2 ∉ ids POSTS1) ∧
  add_post POSTS1 (JObj [("title", JStr "A"); ("content", JStr "B")])
    = respond (JPost new_post) 201 (POSTS1 ++ [new_post]) ∧
  2 ∈ ids (POSTS1 ++ [new_post]).
Proof.
  simpl. split_and!; [|reflexivity| |reflexivity|].
  - unfold ids, POSTS_seed. simpl. right. by left.
  - unfold ids. simpl. by intros [=]%list_elem_of_singleton.
  - unfold ids. simpl. right. by left.
Qed.

(** ** Sanity checks on the scenarios of the specification *)

Example scenario_sort_title_desc :
  get_posts ascii_lower POSTS_seed (Some "title") (Some "desc")
  = respond (JPosts (reverse POSTS_seed)) 200 POSTS_seed.
Proof. reflexivity. Qed.

Example scenario_create :
  (add_post POSTS_seed (JObj [("title", JStr "A"); ("content", JStr "B")])).1
  = Ok (Response (JPost (Post 3 (JStr "A") (JStr "B"))) 201).
Proof. reflexivity. Qed.

Example scenario_delete_99 :
  delete_post POSTS_seed 99
  = respond (JError "Post with id 99 not found.") 404 POSTS_seed.
Proof. reflexivity. Qed.

(** Ties keep the order of the collection in both directions, and case is
    ignored. *)
Example scenario_sort_ties :
  let POSTS := [Post 1 (JStr "b") (JStr "x"); Post 2 (JStr "A") (JStr "x");
                Post 3 (JStr "a") (JStr "x"); Post 4 (JStr "B") (JStr "x")] in
  (get_posts ascii_lower POSTS (Some "title") None).1
    = Ok (Response (JPosts [Post 2 (JStr "A") (JStr "x"); Post 3 (JStr "a") (JStr "x");
                            Post 1 (JStr "b") (JStr "x"); Post 4 (JStr "B") (JStr "x")])
            200) ∧
  (get_posts ascii_lower POSTS (Some "title") (Some "desc")).1
    = Ok (Response (JPosts [Post 1 (JStr "b") (JStr "x"); Post 4 (JStr "B") (JStr "x");
                            Post 2 (JStr "A") (JStr "x"); Post 3 (JStr "a") (JStr "x")])
            200).
Proof. split; reflexivity. Qed.

(** [create] then [search] by a part of the title finds the post. *)
Example scenario_create_then_search :
  let POSTS := (add_post POSTS_seed
                  (JObj [("title", JStr "Third Post"); ("content", JStr "B")])).2 in
  (search_posts ascii_lower POSTS (Some "third") None).1
    = Ok (Response (JPosts [Post 3 (JStr "Third Post") (JStr "B")]) 200).
Proof. reflexivity. Qed.

(** A title that is not text is stored as it comes, and a later sort by title
    raises. *)
Example scenario_number_title :
  let POSTS := (add_post POSTS_seed
                  (JObj [("title", JNum 5); ("content", JStr "B")])).2 in
  POSTS = POSTS_seed ++ [Post 3 (JNum 5) (JStr "B")] ∧
  get_posts ascii_lower POSTS (Some "title") None = escape AttributeError POSTS.
Proof. split; reflexivity. Qed.
